(** * pi_video_looper (VLC fork): the playback control engine

    A shallow embedding of [Adafruit_Video_Looper/video_looper.py]
    (class [VideoLooper]) and the properties of its playlist builder,
    its input handlers and its main loop.

    Python strings are [string]s (file names are taken to consist of
    one-byte characters), Python integers are [Z].  The methods of
    [VideoLooper] read and write the fields of [self], call the Player,
    FileReader and Playlist collaborators, and may raise: they are
    embedded in a small state/trace/exception monad [M].  Everything
    the code asks of the outside (the file system, the plugins'
    answers, the float parser of the Python runtime, the random
    source) is a field of the record [World]. *)

From Stdlib Require Import Bool Ascii String List ZArith Lia Permutation.
From Stdlib Require Import DecimalString.
Import ListNotations.

Open Scope string_scope.
Open Scope Z_scope.

(** ** Python strings and the two regular expressions of the scan *)

Module PyStr.

Definition is_upper (c : ascii) : bool :=
  let n := N_of_ascii c in (65 <=? n)%N && (n <=? 90)%N.

(** Case folding as [re.IGNORECASE] does it on one-byte characters:
    only the ASCII letters have a partner. *)
Definition lower (c : ascii) : ascii :=
  if is_upper c then ascii_of_N (N_of_ascii c + 32) else c.

Definition ci_eqb_ascii (a b : ascii) : bool :=
  Ascii.eqb (lower a) (lower b).

Definition is_digit (c : ascii) : bool :=
  let n := N_of_ascii c in (48 <=? n)%N && (n <=? 57)%N.

(** [strip_prefix_ci p s]: the rest of [s] after a case-insensitive
    occurrence of [p] at its start. *)
Fixpoint strip_prefix_ci (p s : string) : option string :=
  match p, s with
  | EmptyString, _ => Some s
  | String a p', String b s' =>
      if ci_eqb_ascii a b then strip_prefix_ci p' s' else None
  | String _ _, EmptyString => None
  end.

Fixpoint ci_eqb (s t : string) : bool :=
  match s, t with
  | EmptyString, EmptyString => true
  | String a s', String b t' => ci_eqb_ascii a b && ci_eqb s' t'
  | _, _ => false
  end.

(** The longest run of digits at the start of [s], and what follows. *)
Fixpoint span_digits (s : string) : string * string :=
  match s with
  | String c s' =>
      if is_digit c
      then let (ds, r) := span_digits s' in (String c ds, r)
      else (EmptyString, s)
  | EmptyString => (EmptyString, EmptyString)
  end.

(** The scan's repeat pattern, matched at the start of [s] under
    [re.IGNORECASE]: the literal [_repeat_], a group of zero or more
    characters of the class 0-9, the letter [x].  The result is the
    group.  The digit run is taken greedily; a shorter run would be
    followed by a digit, never by [x], so backtracking adds no match. *)
Definition match_repeat_here (s : string) : option string :=
  match strip_prefix_ci "_repeat_" s with
  | Some r =>
      let (ds, r') := span_digits r in
      match r' with
      | String c _ => if ci_eqb_ascii c "x" then Some ds else None
      | EmptyString => None
      end
  | None => None
  end.

(** [re.search] of the repeat pattern in [s]: the group of the
    leftmost match, [None] when there is no match. *)
Fixpoint search_repeat (s : string) : option string :=
  match match_repeat_here s with
  | Some ds => Some ds
  | None =>
      match s with
      | String _ s' => search_repeat s'
      | EmptyString => None
      end
  end.

Definition ends_with_ci (suffix s : string) : bool :=
  let n := String.length s in
  let k := String.length suffix in
  (k <=? n)%nat && ci_eqb suffix (substring (n - k) k s).

Definition newline : string := String (ascii_of_N 10) EmptyString.

(** The alternatives of the group in ['\.({0})$'.format('|'.join(exts))]:
    the join of no extension is the empty pattern. *)
Definition alternatives (exts : list string) : list string :=
  match exts with
  | [] => [EmptyString]
  | _ => exts
  end.

(** [re.search('\.(e1|...|en)$', s, re.IGNORECASE)] for extensions
    that are plain letters and digits, as the Player plugins return
    them.  [$] matches at the end of [s] and before a newline that
    ends [s]. *)
Definition search_extension (exts : list string) (s : string) : bool :=
  existsb (fun e => ends_with_ci ("." ++ e) s
                    || ends_with_ci ("." ++ e ++ newline) s)
          (alternatives exts).

Fixpoint rev_string (s : string) : string :=
  match s with
  | EmptyString => EmptyString
  | String c s' => rev_string s' ++ String c EmptyString
  end.

Fixpoint lstrip_slash (s : string) : string :=
  match s with
  | String c s' => if Ascii.eqb c "/" then lstrip_slash s' else s
  | EmptyString => EmptyString
  end.

(** [s.rstrip('/')] *)
Definition rstrip_slash (s : string) : string :=
  rev_string (lstrip_slash (rev_string s)).

(** [s.rfind(c)], [-1] when [c] does not occur. *)
Fixpoint rfind (c : ascii) (s : string) : Z :=
  match s with
  | EmptyString => -1
  | String a s' =>
      let r := rfind c s' in
      if 0 <=? r then r + 1
      else if Ascii.eqb a c then 0 else -1
  end.

Fixpoint all_dots (s : string) : bool :=
  match s with
  | EmptyString => true
  | String c s' => Ascii.eqb c "." && all_dots s'
  end.

(** [p[i:j]] for [0 <= i]. *)
Definition slice (i j : Z) (p : string) : string :=
  substring (Z.to_nat i) (Z.to_nat (j - i)) p.

End PyStr.

(** ** os.path (posixpath) *)

Module PosixPath.
Import PyStr.

Definition isabs (p : string) : bool :=
  match p with
  | String c _ => Ascii.eqb c "/"
  | EmptyString => false
  end.

Definition ends_with_slash (p : string) : bool :=
  match rev_string p with
  | String c _ => Ascii.eqb c "/"
  | EmptyString => false
  end.

(** [os.path.join(a, b)] *)
Definition join (a b : string) : string :=
  if isabs b then b
  else if String.eqb a "" || ends_with_slash a then a ++ b
  else a ++ "/" ++ b.

(** [os.path.splitext(p)]: the extension starts at the last dot of
    the last component, unless only dots precede it there. *)
Definition splitext (p : string) : string * string :=
  let sepIndex := rfind "/" p in
  let dotIndex := rfind "." p in
  let n := Z.of_nat (String.length p) in
  if (sepIndex <? dotIndex)
     && negb (all_dots (slice (sepIndex + 1) dotIndex p))
  then (slice 0 dotIndex p, slice dotIndex n p)
  else (p, EmptyString).

End PosixPath.

Open Scope list_scope.

(** ** Python values that cross the interfaces *)

(** The action of a pin is whatever the JSON pin map holds: an [int],
    a [str], or something else (a float, a list, [None], ...). *)
Inductive PyVal : Type :=
| PyInt (n : Z)
| PyStr (s : string)
| PyOther.

(** The third argument of the [Movie] constructor as the scan passes
    it: the integer [1], or the text of a regular-expression group. *)
Inductive RepeatArg : Type :=
| RepeatInt (n : Z)
| RepeatStr (s : string).

Definition RepeatArg_eqb (a b : RepeatArg) : bool :=
  match a, b with
  | RepeatInt n, RepeatInt m => n =? m
  | RepeatStr s, RepeatStr t => String.eqb s t
  | _, _ => false
  end.

Inductive PyExc : Type :=
| AttributeError | IndexError | KeyError | OSError
| OverflowError | ValueError | PlaylistFileError | KeyboardInterrupt.

Inductive Res (A : Type) : Type :=
| Ok (a : A)
| Raise (e : PyExc).
Arguments Ok {A} a.
Arguments Raise {A} e.

(** ** The Movie/Playlist model ([model.py]) *)

Module Model.

(** Modelled from the spec: the class [Movie] of [model.py], which is
    not among the sources.  Spec section 3: identity is the path, the
    attributes are the display title and the repeat count.  The three
    fields are the three constructor arguments of the call in
    [_build_playlist_from_all_files], kept as the scan passes them. *)
Record Movie : Type := mkMovie {
  path : string;
  title : string;
  repeat : RepeatArg
}.

(** Modelled from the spec: the class [Playlist] of [model.py], which
    is not among the sources.  Spec section 3: an ordered sequence of
    Movie, a cursor (current index, -1 when unset, section 4.1) and an
    optional pending-override index. *)
Record Playlist : Type := mkPlaylistState {
  movies : list Movie;
  cursor : Z;
  pending : option Z
}.

(** Modelled from the spec: the constructor [Playlist(movies)];
    section 4.1, the cursor starts unset. *)
Definition mkPlaylist (ms : list Movie) : Playlist :=
  {| movies := ms; cursor := -1; pending := None |}.

(** Modelled from the spec: [length()]. *)
Definition length (pl : Playlist) : Z :=
  Z.of_nat (List.length (movies pl)).

(** Modelled from the spec: the order of Movies, by path (section
    4.1), as [sorted(movies)] uses it.  [sorted] is stable. *)
Fixpoint insert_movie (m : Movie) (l : list Movie) : list Movie :=
  match l with
  | [] => [m]
  | y :: t =>
      if String.ltb (path y) (path m) then y :: insert_movie m t
      else m :: y :: t
  end.

Fixpoint sorted (l : list Movie) : list Movie :=
  match l with
  | [] => []
  | m :: t => insert_movie m (sorted t)
  end.

(** Modelled from the spec: a uniformly random index different from
    the current one when the length exceeds 1, the only index
    otherwise (section 4.1).  [rnd] is the draw of the random source. *)
Definition random_index (rnd : nat) (pl : Playlist) : Z :=
  let n := List.length (movies pl) in
  if (1 <? n)%nat then
    let cands := filter (fun i => negb (i =? cursor pl))
                        (map Z.of_nat (seq 0 n)) in
    nth (rnd mod List.length cands)%nat cands 0
  else 0.

(** Modelled from the spec: [next(random)], section 4.1, called
    [next_movie] by the Controller.  An index marked by [set_next] is
    picked up by the following call; else a random pick or the
    circular successor of the cursor. *)
Definition next_movie (random : bool) (rnd : nat) (pl : Playlist)
  : option Movie * Playlist :=
  match movies pl with
  | [] => (None, pl)
  | _ :: _ =>
      let i := match pending pl with
               | Some i => i
               | None => if random then random_index rnd pl
                         else (cursor pl + 1) mod length pl
               end in
      (nth_error (movies pl) (Z.to_nat i),
       {| movies := movies pl; cursor := i; pending := None |})
  end.

(** Modelled from the spec: [previous(random)], section 4.1:
    symmetric to [next], with a circular decrement. *)
Definition previous_movie (random : bool) (rnd : nat) (pl : Playlist)
  : option Movie * Playlist :=
  match movies pl with
  | [] => (None, pl)
  | _ :: _ =>
      let i := if random then random_index rnd pl
               else (cursor pl - 1) mod length pl in
      (nth_error (movies pl) (Z.to_nat i),
       {| movies := movies pl; cursor := i; pending := pending pl |})
  end.

(** Modelled from the spec: [set_next(index)], section 4.1: an index
    out of range (or a target that is no index) is rejected and the
    playlist stays as it is; an index in range is marked for the
    following [next]. *)
Definition set_next (target : PyVal) (pl : Playlist) : Playlist :=
  match target with
  | PyInt i =>
      if (0 <=? i) && (i <? length pl)
      then {| movies := movies pl; cursor := cursor pl; pending := Some i |}
      else pl
  | _ => pl
  end.

Definition movie_key (m : Movie) : string * RepeatArg :=
  (path m, repeat m).

Definition key_eqb (a b : string * RepeatArg) : bool :=
  String.eqb (fst a) (fst b) && RepeatArg_eqb (snd a) (snd b).

Definition occurrences (k : string * RepeatArg)
           (l : list (string * RepeatArg)) : nat :=
  List.length (filter (key_eqb k) l).

(** Modelled from the spec: equality of Playlists, sections 3 and
    4.1: the multisets of (path, repeat) pairs are the same, whatever
    the order and the cursor. *)
Definition playlist_eqb (p q : Playlist) : bool :=
  let kp := map movie_key (movies p) in
  let kq := map movie_key (movies q) in
  forallb (fun k => (occurrences k kp =? occurrences k kq)%nat) (kp ++ kq).

End Model.

Import Model.

(** ** The world outside the Controller *)

(** What [float(s)] of the Python runtime makes of [s]: a [ValueError],
    a finite float (of which only the integer part [int(...)] is used),
    an infinity or a NaN (on which [int(...)] raises). *)
Inductive PyFloat : Type :=
| FloatValueError
| FloatFinite (truncated : Z)
| FloatInf
| FloatNan.

(** One observation of the outside: the file system, the answers of
    the FileReader and Player plugins, the playlist-file builder
    ([playlist_builders.build_playlist_m3u], not among the sources,
    taken as it comes), the runtime's [float] and the random draw. *)
Record World : Type := {
  search_paths : list string;
  isfile : string -> bool;
  path_exists : string -> bool;
  isdir : string -> bool;
  listdir : string -> list string;
  readline : string -> option string;
  build_playlist_m3u : string -> Res Playlist;
  float : string -> PyFloat;
  finished : bool;
  is_playing : bool;
  rnd : nat
}.

(** ** The state of a VideoLooper *)

Inductive Key : Type :=
| K_ESCAPE | K_SPACE | K_RIGHT | K_LEFT | K_r | K_s | K_MINUS | K_PLUS
| K_KP_PLUS | K_m | K_UP | K_DOWN | K_k | K_p | K_b | K_o | K_i
| K_other (code : Z).

Inductive EventType : Type := KEYDOWN | OTHEREVENT.

Record Event : Type := mkEvent {
  type : EventType;
  key : option Key
}.

(** The fields [__init__] sets once. *)
Record Config : Type := {
  _is_random : bool;
  _resume_playlist : bool;
  _osd : bool;
  _keyboard_control : bool;
  _gpio_control_disabled_while_playback : bool;
  _countdown_time : Z;
  _wait_time : Z;
  (** option [path] of section [playlist] of the ini file, if present *)
  playlist_path_option : option string;
  _alsa_hw_vol_file : string;
  _sound_vol_file : string;
  (** [self._player.supported_extensions()], joined into [_extensions] *)
  supported_extensions : list string;
  _pinMap : option (list (string * PyVal))
}.

(** The fields that change while the looper runs. *)
Record VideoLooper : Type := mkLooper {
  config : Config;
  _playlist : option Playlist;
  _alsa_hw_vol : option string;
  _sound_vol : Z;
  _running : bool;
  _playbackStopped : bool
}.

(** The end of [__init__]. *)
Definition init (cfg : Config) (play_on_startup : bool) : VideoLooper :=
  {| config := cfg;
     _playlist := None;
     _alsa_hw_vol := None;
     _sound_vol := 0;
     _running := true;
     _playbackStopped := negb play_on_startup |}.

(** ** Calls and the monad *)

(** What a method does to its collaborators, in order.  [play_next_called]
    and [play_previous_called] mark the entry of the two methods. *)
Inductive Call : Type :=
| player_initialize
| player_play_last
| player_play (movie_path : string) (volume : Z)
| player_stop (fade : option Z)
| player_finished
| player_is_playing
| player_toggle_pause
| player_toggle_mute
| player_increase_volume
| player_decrease_volume
| playlist_next_movie (random : bool)
| playlist_previous_movie (random : bool)
| playlist_set_next (target : PyVal)
| event_post (e : Event)
| sleep (seconds : Z)
| gpio_cleanup
| pygame_quit
| play_next_called
| play_previous_called.

Definition M (A : Type) : Type :=
  VideoLooper -> Res A * VideoLooper * list Call.

Definition ret {A} (a : A) : M A := fun st => (Ok a, st, []).

Definition bind {A B} (m : M A) (f : A -> M B) : M B :=
  fun st =>
    match m st with
    | (Ok a, st1, t1) =>
        let '(r, st2, t2) := f a st1 in (r, st2, t1 ++ t2)
    | (Raise e, st1, t1) => (Raise e, st1, t1)
    end.

Notation "x <- c1 ;; c2" := (bind c1 (fun x => c2))
  (at level 61, c1 at next level, right associativity).
Notation "c1 ;; c2" := (bind c1 (fun _ => c2))
  (at level 61, right associativity).

Definition get : M VideoLooper := fun st => (Ok st, st, []).
Definition call (c : Call) : M unit := fun st => (Ok tt, st, [c]).
Definition raise {A} (e : PyExc) : M A := fun st => (Raise e, st, []).
Definition lift {A} (r : Res A) : M A := fun st => (r, st, []).

(** Assignments to the fields of [self]. *)
Definition with_playlist (pl : Playlist) (st : VideoLooper) : VideoLooper :=
  {| config := config st; _playlist := Some pl;
     _alsa_hw_vol := _alsa_hw_vol st; _sound_vol := _sound_vol st;
     _running := _running st; _playbackStopped := _playbackStopped st |}.

Definition with_alsa_hw_vol (v : string) (st : VideoLooper) : VideoLooper :=
  {| config := config st; _playlist := _playlist st;
     _alsa_hw_vol := Some v; _sound_vol := _sound_vol st;
     _running := _running st; _playbackStopped := _playbackStopped st |}.

Definition with_sound_vol (v : Z) (st : VideoLooper) : VideoLooper :=
  {| config := config st; _playlist := _playlist st;
     _alsa_hw_vol := _alsa_hw_vol st; _sound_vol := v;
     _running := _running st; _playbackStopped := _playbackStopped st |}.

Definition with_running (b : bool) (st : VideoLooper) : VideoLooper :=
  {| config := config st; _playlist := _playlist st;
     _alsa_hw_vol := _alsa_hw_vol st; _sound_vol := _sound_vol st;
     _running := b; _playbackStopped := _playbackStopped st |}.

Definition with_playbackStopped (b : bool) (st : VideoLooper) : VideoLooper :=
  {| config := config st; _playlist := _playlist st;
     _alsa_hw_vol := _alsa_hw_vol st; _sound_vol := _sound_vol st;
     _running := _running st; _playbackStopped := b |}.

Definition modify (f : VideoLooper -> VideoLooper) : M unit :=
  fun st => (Ok tt, f st, []).

Definition set_playlist (pl : Playlist) : M unit := modify (with_playlist pl).
Definition set_alsa_hw_vol (v : string) : M unit := modify (with_alsa_hw_vol v).
Definition set_sound_vol (v : Z) : M unit := modify (with_sound_vol v).
Definition set_running (b : bool) : M unit := modify (with_running b).
Definition set_playbackStopped (b : bool) : M unit :=
  modify (with_playbackStopped b).

(** [self._playlist], an [AttributeError] on the first use of [None]. *)
Definition the_playlist : M Playlist :=
  st <- get ;;
  match _playlist st with
  | Some pl => ret pl
  | None => raise AttributeError
  end.

(** ** The playlist builder *)

(** [self._is_number(s)] *)
Definition _is_number (w : World) (s : string) : bool :=
  match float w s with
  | FloatValueError => false
  | _ => true
  end.

(** [int(float(s))] *)
Definition int_of_float (w : World) (s : string) : Res Z :=
  match float w s with
  | FloatFinite z => Ok z
  | FloatInf => Raise OverflowError
  | FloatNan => Raise ValueError
  | FloatValueError => Raise ValueError
  end.

(** The repeat argument the scan computes for the file name [x]. *)
Definition repeat_of_name (x : string) : RepeatArg :=
  match PyStr.search_repeat x with
  | Some group1 => RepeatStr group1
  | None => RepeatInt 1
  end.

(** ['{0}/{1}'.format(path.rstrip('/'), x)] *)
Definition in_dir (path x : string) : string :=
  (PyStr.rstrip_slash path ++ "/" ++ x)%string.

Definition movie_of_name (path x : string) : Movie :=
  mkMovie (in_dir path x) (fst (PosixPath.splitext x)) (repeat_of_name x).

(** The inner loop of the scan: [for x in os.listdir(path)]. *)
Fixpoint collect_movies (exts : list string) (path : string)
         (names : list string) : Res (list Movie) :=
  match names with
  | [] => Ok []
  | x :: rest =>
      match x with
      | EmptyString => Raise IndexError
      | String x0 _ =>
          match collect_movies exts path rest with
          | Ok ms =>
              if negb (Ascii.eqb x0 ".") && PyStr.search_extension exts x
              then Ok (movie_of_name path x :: ms)
              else Ok ms
          | Raise e => Raise e
          end
      end
  end.

(** The hardware-volume sidecar of one search path. *)
Definition read_alsa_hw_vol (w : World) (path : string) : M unit :=
  st <- get ;;
  let file := _alsa_hw_vol_file (config st) in
  if negb (String.eqb file "") then
    let alsa_hw_vol_file_path := in_dir path file in
    if path_exists w alsa_hw_vol_file_path then
      match readline w alsa_hw_vol_file_path with
      | Some alsa_hw_vol_string => set_alsa_hw_vol alsa_hw_vol_string
      | None => raise OSError
      end
    else ret tt
  else ret tt.

(** The software-volume sidecar of one search path. *)
Definition read_sound_vol (w : World) (path : string) : M unit :=
  st <- get ;;
  let file := _sound_vol_file (config st) in
  if negb (String.eqb file "") then
    let sound_vol_file_path := in_dir path file in
    if path_exists w sound_vol_file_path then
      match readline w sound_vol_file_path with
      | Some sound_vol_string =>
          if _is_number w sound_vol_string then
            v <- lift (int_of_float w sound_vol_string) ;;
            set_sound_vol v
          else ret tt
      | None => raise OSError
      end
    else ret tt
  else ret tt.

(** The outer loop of the scan: [for path in paths]. *)
Fixpoint scan_paths (w : World) (movies : list Movie) (paths : list string)
  : M (list Movie) :=
  match paths with
  | [] => ret movies
  | path :: rest =>
      if negb (path_exists w path) || negb (isdir w path)
      then scan_paths w movies rest
      else
        st <- get ;;
        found <- lift (collect_movies (supported_extensions (config st))
                                      path (listdir w path)) ;;
        read_alsa_hw_vol w path ;;
        read_sound_vol w path ;;
        scan_paths w (movies ++ found) rest
  end.

Definition _build_playlist_from_all_files (w : World) : M Playlist :=
  movies <- scan_paths w [] (search_paths w) ;;
  ret (mkPlaylist (sorted movies)).

(** The [for ... else] of [_build_playlist]: the first search path
    under which the playlist file is found. *)
Fixpoint first_resolving (w : World) (playlist_path : string)
         (paths : list string) : option string :=
  match paths with
  | [] => None
  | path :: rest =>
      let maybe_playlist_path := PosixPath.join path playlist_path in
      if isfile w maybe_playlist_path then Some maybe_playlist_path
      else first_resolving w playlist_path rest
  end.

(** The end of [_build_playlist], once the path is resolved. *)
Definition build_from_playlist_file (w : World) (playlist_path : string)
  : M Playlist :=
  let extension := snd (PosixPath.splitext playlist_path) in
  if String.eqb extension ".m3u" || String.eqb extension ".m3u8"
  then lift (build_playlist_m3u w playlist_path)
  else _build_playlist_from_all_files w.

Definition _build_playlist (w : World) : M Playlist :=
  st <- get ;;
  match playlist_path_option (config st) with
  | Some playlist_path =>
      if negb (String.eqb playlist_path "") then
        if PosixPath.isabs playlist_path then
          if negb (isfile w playlist_path)
          then _build_playlist_from_all_files w
          else build_from_playlist_file w playlist_path
        else
          match search_paths w with
          | [] => ret (mkPlaylist [])
          | paths =>
              match first_resolving w playlist_path paths with
              | Some resolved => build_from_playlist_file w resolved
              | None => _build_playlist_from_all_files w
              end
          end
      else _build_playlist_from_all_files w
  | None => _build_playlist_from_all_files w
  end.

(** ** Playback *)

Definition _play_next (w : World) : M unit :=
  call play_next_called ;;
  pl <- the_playlist ;;
  if Model.length pl =? 0 then ret tt
  else
    st <- get ;;
    let random := _is_random (config st) in
    call (playlist_next_movie random) ;;
    let (movie, pl') := next_movie random (rnd w) pl in
    set_playlist pl' ;;
    match movie with
    | Some m => call (player_play (path m) (_sound_vol st))
    | None => raise AttributeError
    end.

Definition _play_previous (w : World) : M unit :=
  call play_previous_called ;;
  pl <- the_playlist ;;
  if Model.length pl =? 0 then ret tt
  else
    st <- get ;;
    let random := _is_random (config st) in
    call (playlist_previous_movie random) ;;
    let (movie, pl') := previous_movie random (rnd w) pl in
    set_playlist pl' ;;
    match movie with
    | Some m => call (player_play (path m) (_sound_vol st))
    | None => raise AttributeError
    end.

(** ** The keyboard handler *)

(** The body of [for event in pygame.event.get()]. *)
Definition handle_event (w : World) (event : Event) : M unit :=
  match type event with
  | KEYDOWN =>
      match key event with
      | Some K_ESCAPE => set_running false
      | Some K_SPACE => call player_toggle_pause
      | Some K_RIGHT => _play_next w
      | Some K_LEFT => _play_previous w
      | Some K_r =>
          pl <- _build_playlist w ;;
          set_playlist pl ;;
          _play_next w
      | Some K_s => call (player_stop None)
      | Some K_MINUS => call player_decrease_volume
      | Some K_PLUS => call player_increase_volume
      | Some K_KP_PLUS => call player_increase_volume
      | Some K_m => call player_toggle_mute
      | Some K_UP => _play_next w
      | Some K_DOWN => _play_previous w
      | _ => ret tt
      end
  | OTHEREVENT => ret tt
  end.

Fixpoint handle_events (w : World) (events : list Event) : M unit :=
  match events with
  | [] => ret tt
  | event :: rest => handle_event w event ;; handle_events w rest
  end.

(** [signal.signal(signal.SIGINT, self._handle_exit_signal)], line 335,
    where the program calls it: in the keyboard thread, the one caller
    of [_handle_keyboard_shortcuts] (lines 120-122).  Python lets the
    main thread alone set a signal handler; in any other thread the
    call raises [ValueError] and sets nothing. *)
Definition signal_signal : M unit := raise ValueError.

(** [_handle_keyboard_shortcuts]: the registration of the handler, then
    [while self._running], here up to the end of its first pass, on the
    events [pygame.event.get()] returns.  (The sleep of a tenth of a
    second between two passes is left out.) *)
Definition _handle_keyboard_shortcuts (w : World) (events : list Event)
  : M unit :=
  signal_signal ;;
  st <- get ;;
  if _running st then handle_events w events else ret tt.

(** [_handle_exit_signal(signal, frame)], the handler that line 335
    means to register. *)
Definition _handle_exit_signal : M unit := set_running false.

(** ** The GPIO handler *)

Definition key_action_names : list string :=
  ["K_ESCAPE"; "K_k"; "K_s"; "K_SPACE"; "K_p"; "K_b"; "K_o"; "K_i"]%string.

(** [action in ['K_ESCAPE', ...]] *)
Definition is_key_action (action : PyVal) : bool :=
  match action with
  | PyStr name => existsb (String.eqb name) key_action_names
  | _ => false
  end.

(** [getattr(pygame, name, None)] on the names the handler looks up. *)
Definition pygame_key (name : string) : option Key :=
  if String.eqb name "K_ESCAPE" then Some K_ESCAPE
  else if String.eqb name "K_k" then Some K_k
  else if String.eqb name "K_s" then Some K_s
  else if String.eqb name "K_SPACE" then Some K_SPACE
  else if String.eqb name "K_p" then Some K_p
  else if String.eqb name "K_b" then Some K_b
  else if String.eqb name "K_o" then Some K_o
  else if String.eqb name "K_i" then Some K_i
  else None.

(** [str(pin)] *)
Definition str (pin : Z) : string := NilZero.string_of_int (Z.to_int pin).

Fixpoint lookup (k : string) (d : list (string * PyVal)) : option PyVal :=
  match d with
  | [] => None
  | (k', v) :: rest => if String.eqb k k' then Some v else lookup k rest
  end.

Definition _handle_gpio_control (w : World) (pin : Z) : M unit :=
  st <- get ;;
  match _pinMap (config st) with
  | None => ret tt
  | Some pinMap =>
      playing <- (if _gpio_control_disabled_while_playback (config st)
                  then call player_is_playing ;; ret (is_playing w)
                  else ret false) ;;
      if playing then ret tt
      else
        match lookup (str pin) pinMap with
        | None => raise KeyError
        | Some action =>
            if is_key_action action then
              match action with
              | PyStr name => call (event_post (mkEvent KEYDOWN (pygame_key name)))
              | _ => ret tt
              end
            else
              pl <- the_playlist ;;
              call (playlist_set_next action) ;;
              set_playlist (set_next action pl) ;;
              call (player_stop (Some 3)) ;;
              set_playbackStopped false
        end
  end.

(** ** The main loop *)

(** [new_playlist != self._playlist] *)
Definition differs (new_playlist : Playlist) (current : option Playlist)
  : bool :=
  match current with
  | Some pl => negb (playlist_eqb new_playlist pl)
  | None => true
  end.

(** The first half of the body: "check if the current video has
    finished playing". *)
Definition check_finished (w : World) : M unit :=
  call player_finished ;;
  if finished w then _play_next w else ret tt.

(** The second half: "check for any changes to the file system". *)
Definition check_changes (w : World) : M unit :=
  new_playlist <- _build_playlist w ;;
  st <- get ;;
  if differs new_playlist (_playlist st) then
    set_playlist new_playlist ;;
    _play_next w
  else ret tt.

(** The body of [while self._running] in [run]. *)
Definition loop_body (w : World) : M unit :=
  st <- get ;;
  if negb (_playbackStopped st) then
    check_finished w ;;
    check_changes w ;;
    call (sleep (_wait_time (config st)))
  else call (sleep 1).

(** What happens around the main loop while it is in one pass: key
    events arrive in the queue of pygame, a GPIO edge fires, the
    control-c signal (SIGINT) arrives. *)
Inductive Input : Type :=
| KeyboardPoll (events : list Event)
| GpioEdge (pin : Z)
| ExitSignal.

(** One run of [m] on a thread of its own: what it raises ends that run
    there and does not reach the main loop. *)
Definition on_other_thread (m : M unit) : M unit :=
  fun st => let '(_, st', t) := m st in (Ok tt, st', t).

(** The keyboard thread, lines 120-122 of [__init__]: with keyboard
    control on, [_handle_keyboard_shortcuts] runs once, as the target
    of a thread of its own, with [events] in the queue. *)
Definition keyboard_thread (w : World) (events : list Event) : M unit :=
  st <- get ;;
  if _keyboard_control (config st)
  then on_other_thread (_handle_keyboard_shortcuts w events)
  else ret tt.

(** - Key events: the keyboard thread alone reads the queue of pygame,
      and by the time of the main loop that thread is not there: not
      started with keyboard control off, ended by the [ValueError] of
      its first statement otherwise.  The events stay unread.
    - A GPIO edge: RPi.GPIO runs the callback on its own thread, once
      for each edge.
    - SIGINT: the program has set no handler (its one call of
      [signal.signal] raises), so Python's own handler raises
      [KeyboardInterrupt] in the main thread. *)
Definition deliver (w : World) (i : Input) : M unit :=
  match i with
  | KeyboardPoll _ => ret tt
  | GpioEdge pin => on_other_thread (_handle_gpio_control w pin)
  | ExitSignal => raise KeyboardInterrupt
  end.

Fixpoint deliver_all (w : World) (inputs : list Input) : M unit :=
  match inputs with
  | [] => ret tt
  | i :: rest => deliver w i ;; deliver_all w rest
  end.

(** One pass of the main loop as the outside sees it: the world the
    pass observes and the inputs the handlers get meanwhile (they are
    taken to run while the loop sleeps). *)
Record Tick : Type := {
  world : World;
  inputs : list Input
}.

(** [while self._running: ...], for as many passes as [ticks] has.  The
    result tells whether the loop was left. *)
Fixpoint main_loop (ticks : list Tick) {struct ticks} : M bool :=
  st <- get ;;
  if _running st then
    match ticks with
    | [] => ret false
    | t :: rest =>
        loop_body (world t) ;;
        deliver_all (world t) (inputs t) ;;
        main_loop rest
    end
  else ret true.

(** [if self._pinMap:] *)
Definition pinMap_configured (cfg : Config) : bool :=
  match _pinMap cfg with
  | Some (_ :: _) => true
  | _ => false
  end.

(** "Clean up and exit", the end of [run]. *)
Definition clean_up : M unit :=
  call (player_stop None) ;;
  st <- get ;;
  (if pinMap_configured (config st) then call gpio_cleanup else ret tt) ;;
  call pygame_quit.

Definition loop_and_clean_up (ticks : list Tick) : M bool :=
  left <- main_loop ticks ;;
  if left then clean_up ;; ret true else ret false.

(** The sleeps of [_animate_countdown] (the rendering is not modelled). *)
Definition _animate_countdown : M unit :=
  st <- get ;;
  if negb (_osd (config st)) then ret tt
  else
    fold_right (fun _ m => call (sleep 1) ;; m) (ret tt)
               (seq 0 (Z.to_nat (_countdown_time (config st)))).

Definition run (w0 : World) (ticks : list Tick) : M bool :=
  pl <- _build_playlist w0 ;;
  set_playlist pl ;;
  call player_initialize ;;
  st <- get ;;
  (if _resume_playlist (config st) then call player_play_last
   else _play_next w0) ;;
  (if 0 <? _countdown_time (config st) then _animate_countdown else ret tt) ;;
  loop_and_clean_up ticks.

(** ** Vocabulary of the statements *)

Definition state_of {A} (o : Res A * VideoLooper * list Call) : VideoLooper :=
  snd (fst o).
Definition trace_of {A} (o : Res A * VideoLooper * list Call) : list Call :=
  snd o.

Definition is_play_next_call (c : Call) : bool :=
  match c with
  | play_next_called => true
  | _ => false
  end.

(** The movies of the playlist a builder returned. *)
Definition result_movies (o : Res Playlist * VideoLooper * list Call)
  : option (list Movie) :=
  match fst (fst o) with
  | Ok pl => Some (movies pl)
  | Raise _ => None
  end.

(** How often [_play_next] was entered. *)
Definition play_next_calls (tr : list Call) : nat :=
  List.length (filter is_play_next_call tr).

Definition is_sleep (c : Call) : bool :=
  match c with
  | sleep _ => true
  | _ => false
  end.

Definition sleeps (tr : list Call) : nat :=
  List.length (filter is_sleep tr).

(** The paths handed to [player.play], in order. *)
Definition played (tr : list Call) : list string :=
  flat_map (fun c => match c with
                     | player_play p _ => [p]
                     | _ => []
                     end) tr.

(** What the exit path of [run] does. *)
Definition exit_trace (cfg : Config) : list Call :=
  player_stop None
  :: (if pinMap_configured cfg then [gpio_cleanup] else [])
  ++ [pygame_quit].

(** The configured playlist-file path as the spec resolves it: an
    absolute path is used directly, a relative one is looked for under
    each search path in order. *)
Definition resolved (w : World) (playlist_path : string) : option string :=
  if PosixPath.isabs playlist_path then
    if isfile w playlist_path then Some playlist_path else None
  else
    find (isfile w)
         (map (fun d => PosixPath.join d playlist_path) (search_paths w)).

Definition recognised (playlist_path : string) : bool :=
  let extension := snd (PosixPath.splitext playlist_path) in
  String.eqb extension ".m3u" || String.eqb extension ".m3u8".

(** A search path the scan enters. *)
Definition scanned (w : World) (path : string) : bool :=
  path_exists w path && isdir w path.

(** The search path holds a hardware-volume sidecar. *)
Definition has_hw_sidecar (w : World) (cfg : Config) (path : string) : bool :=
  scanned w path
  && negb (String.eqb (_alsa_hw_vol_file cfg) "")
  && path_exists w (in_dir path (_alsa_hw_vol_file cfg)).

(** The search path holds a software-volume sidecar whose first line is
    a number. *)
Definition has_sw_number (w : World) (cfg : Config) (path : string) : bool :=
  scanned w path
  && negb (String.eqb (_sound_vol_file cfg) "")
  && path_exists w (in_dir path (_sound_vol_file cfg))
  && match readline w (in_dir path (_sound_vol_file cfg)) with
     | Some s => _is_number w s
     | None => false
     end.

Definition last_such {A} (f : A -> bool) (l : list A) : option A :=
  find f (rev l).

Fixpoint all_digits (s : string) : bool :=
  match s with
  | EmptyString => true
  | String c s' => PyStr.is_digit c && all_digits s'
  end.


Fixpoint digits_value_from (acc : Z) (s : string) : Z :=
  match s with
  | EmptyString => acc
  | String c s' =>
      digits_value_from (10 * acc + (Z.of_N (N_of_ascii c) - 48)) s'
  end.

(** Modelled from the spec: the repeat count of a [Movie] ([model.py]
    is not among the sources).  Section 3 makes it a positive integer
    with default 1, and section 4.3 treats a count of less than 1 as
    1.  The constructor gets an integer or a run of digits; a run
    without a digit holds no number and gives the default; another text
    is no count. *)
Definition repeat_count (r : RepeatArg) : option Z :=
  match r with
  | RepeatInt n => Some (Z.max 1 n)
  | RepeatStr s =>
      if all_digits s then Some (Z.max 1 (digits_value_from 0 s)) else None
  end.

(** [m] takes every state to an [R]-related one, raise or not. *)
Definition stable (R : VideoLooper -> VideoLooper -> Prop) {A} (m : M A)
  : Prop :=
  forall st, R st (state_of (m st)).

(** [m] calls nobody. *)
Definition silent {A} (m : M A) : Prop :=
  forall st, trace_of (m st) = [].

(** The builders touch the two volumes and nothing else. *)
Definition only_volumes (st st' : VideoLooper) : Prop :=
  config st' = config st
  /\ _playlist st' = _playlist st
  /\ _running st' = _running st
  /\ _playbackStopped st' = _playbackStopped st.

(** The main loop and the GPIO callbacks leave the configuration and
    the running flag alone. *)
Definition keeps_running (st st' : VideoLooper) : Prop :=
  config st' = config st
  /\ _running st' = _running st.

(** Playback and the builders leave the configuration and the two
    flags alone. *)
Definition keeps_flags (st st' : VideoLooper) : Prop :=
  config st' = config st
  /\ _running st' = _running st
  /\ _playbackStopped st' = _playbackStopped st.

(** A key press leaves the configuration and [_playbackStopped] alone
    and can only clear [_running]. *)
Definition key_frame (st st' : VideoLooper) : Prop :=
  config st' = config st
  /\ _playbackStopped st' = _playbackStopped st
  /\ (_running st = false -> _running st' = false).

(** Equality of (path, repeat) pairs is decidable. *)
Definition key_eq_dec (a b : string * RepeatArg) : {a = b} + {a <> b}.
Proof.
  decide equality.
  - decide equality; [apply Z.eq_dec | apply string_dec].
  - apply string_dec.
Defined.

(** ** Worlds and configurations of the examples *)

Module Examples.

Definition no_float (s : string) : PyFloat := FloatValueError.

(** A USB stick with two movies, a hidden file and a text file. *)
Definition usb (fin playing : bool) : World :=
  {| search_paths := ["/mnt/usb"]%string;
     isfile := fun _ => false;
     path_exists := fun p => String.eqb p "/mnt/usb";
     isdir := fun p => String.eqb p "/mnt/usb";
     listdir := fun p =>
       if String.eqb p "/mnt/usb"
       then ["a_repeat_3x.mp4"; "b.mp4"; ".hidden.mp4"; "notes.txt"]%string
       else [];
     readline := fun _ => None;
     build_playlist_m3u := fun _ => Raise PlaylistFileError;
     float := no_float;
     finished := fin;
     is_playing := playing;
     rnd := 0%nat |}.

Definition cfg (gpio_disabled : bool) (playlist_file : option string)
  : Config :=
  {| _is_random := false;
     _resume_playlist := false;
     _osd := false;
     _keyboard_control := true;
     _gpio_control_disabled_while_playback := gpio_disabled;
     _countdown_time := 0;
     _wait_time := 5;
     playlist_path_option := playlist_file;
     _alsa_hw_vol_file := "";
     _sound_vol_file := "";
     supported_extensions := ["mp4"; "avi"]%string;
     _pinMap := Some [("11"%string, PyInt 1); ("13"%string, PyStr "K_s")] |}.

Definition movie_a : Movie :=
  mkMovie "/mnt/usb/a_repeat_3x.mp4" "a_repeat_3x" (RepeatStr "3").
Definition movie_b : Movie :=
  mkMovie "/mnt/usb/b.mp4" "b" (RepeatInt 1).

(** The looper after [run] built the playlist of [usb] and started the
    first movie. *)
Definition playing_a (gpio_disabled : bool) : VideoLooper :=
  {| config := cfg gpio_disabled None;
     _playlist := Some {| movies := [movie_a; movie_b];
                          cursor := 0; pending := None |};
     _alsa_hw_vol := None;
     _sound_vol := 0;
     _running := true;
     _playbackStopped := false |}.

Definition tick (fin : bool) (ins : list Input) : Tick :=
  {| world := usb fin false; inputs := ins |}.

Definition s_key : Event := mkEvent KEYDOWN (Some K_s).

(** Two mounted sticks, each with both volume sidecars. *)
Definition two_sticks : World :=
  {| search_paths := ["/mnt/a"; "/mnt/b"]%string;
     isfile := fun _ => false;
     path_exists := fun p =>
       existsb (String.eqb p)
               ["/mnt/a"; "/mnt/b"; "/mnt/a/hw_vol"; "/mnt/b/hw_vol";
                "/mnt/a/sound_vol"; "/mnt/b/sound_vol"]%string;
     isdir := fun p => existsb (String.eqb p) ["/mnt/a"; "/mnt/b"]%string;
     listdir := fun _ => [];
     readline := fun p =>
       if String.eqb p "/mnt/a/hw_vol" then Some "50"%string
       else if String.eqb p "/mnt/b/hw_vol" then Some "loud"%string
       else if String.eqb p "/mnt/a/sound_vol" then Some "100"%string
       else if String.eqb p "/mnt/b/sound_vol" then Some "200"%string
       else None;
     build_playlist_m3u := fun _ => Raise PlaylistFileError;
     float := fun s =>
       if String.eqb s "100" then FloatFinite 100
       else if String.eqb s "200" then FloatFinite 200
       else FloatValueError;
     finished := false;
     is_playing := false;
     rnd := 0%nat |}.

Definition cfg_volumes : Config :=
  {| _is_random := false;
     _resume_playlist := false;
     _osd := false;
     _keyboard_control := true;
     _gpio_control_disabled_while_playback := false;
     _countdown_time := 0;
     _wait_time := 5;
     playlist_path_option := None;
     _alsa_hw_vol_file := "hw_vol";
     _sound_vol_file := "sound_vol";
     supported_extensions := ["mp4"; "avi"]%string;
     _pinMap := None |}.

(** A stick that holds the files [names] and nothing else. *)
Definition stick_with (names : list string) : World :=
  {| search_paths := ["/mnt/usb"]%string;
     isfile := fun _ => false;
     path_exists := fun p => String.eqb p "/mnt/usb";
     isdir := fun p => String.eqb p "/mnt/usb";
     listdir := fun p => if String.eqb p "/mnt/usb" then names else [];
     readline := fun _ => None;
     build_playlist_m3u := fun _ => Raise PlaylistFileError;
     float := no_float;
     finished := false;
     is_playing := false;
     rnd := 0%nat |}.

(** The looper that is playing [b.mp4] from a playlist of one. *)
Definition playing_b_only : VideoLooper :=
  {| config := cfg false None;
     _playlist := Some {| movies := [movie_b]; cursor := 0; pending := None |};
     _alsa_hw_vol := None;
     _sound_vol := 0;
     _running := true;
     _playbackStopped := false |}.

(** The looper with nothing to play. *)
Definition nothing_to_play : VideoLooper :=
  with_playlist (mkPlaylist []) (init (cfg false None) true).

(** A looper configured with a playlist file. *)
Definition with_playlist_file (p : string) : VideoLooper :=
  init (cfg false (Some p)) true.

End Examples.

(** ** Further vocabulary *)

(** The same files seen at another moment: other answers of the Player
    and another random draw. *)
Definition with_answers (fin playing : bool) (r : nat) (w : World) : World :=
  {| search_paths := search_paths w;
     isfile := isfile w;
     path_exists := path_exists w;
     isdir := isdir w;
     listdir := listdir w;
     readline := readline w;
     build_playlist_m3u := build_playlist_m3u w;
     float := float w;
     finished := fin;
     is_playing := playing;
     rnd := r |}.




Definition is_gpio_edge (i : Input) : bool :=
  match i with
  | GpioEdge _ => true
  | _ => false
  end.

(** No handler runs during the ticks. *)
Definition quiet (ticks : list Tick) : Prop :=
  forall t, In t ticks -> inputs t = [].

(** No GPIO edge fires during the ticks. *)
Definition no_gpio_edge (ticks : list Tick) : Prop :=
  forall t i, In t ticks -> In i (inputs t) -> is_gpio_edge i = false.

(** Nothing changes the configuration, and nothing stops playback
    that is not stopped. *)
Definition stays_playing (st st' : VideoLooper) : Prop :=
  config st' = config st
  /\ (_playbackStopped st = false -> _playbackStopped st' = false).

(** A sidecar of the search path makes the scan fail: one of the two
    files is there and cannot be read, or the first line of the
    software-volume file is an infinity or a NaN for [float]. *)
Definition breaks_scan (w : World) (cfg : Config) (path : string) : bool :=
  scanned w path
  && ((negb (String.eqb (_alsa_hw_vol_file cfg) "")
       && path_exists w (in_dir path (_alsa_hw_vol_file cfg))
       && match readline w (in_dir path (_alsa_hw_vol_file cfg)) with
          | None => true
          | Some _ => false
          end)
      || (negb (String.eqb (_sound_vol_file cfg) "")
          && path_exists w (in_dir path (_sound_vol_file cfg))
          && match readline w (in_dir path (_sound_vol_file cfg)) with
             | None => true
             | Some s =>
                 match float w s with
                 | FloatInf | FloatNan => true
                 | _ => false
                 end
             end)).

(** Two outcomes with the same result and the same configuration. *)
Definition same_result {A} (oa ob : Res A * VideoLooper * list Call) : Prop :=
  fst (fst oa) = fst (fst ob)
  /\ config (state_of oa) = config (state_of ob).

(** The calls a pass of the main loop can make. *)
Definition is_playback_call (c : Call) : bool :=
  match c with
  | player_finished | play_next_called | playlist_next_movie _
  | player_play _ _ | sleep _ => true
  | _ => false
  end.

(** The result of a computation is an exception. *)
Definition raises {A} (o : Res A * VideoLooper * list Call) : Prop :=
  exists e, fst (fst o) = Raise e.

(** What the keyboard handler does on the key-down of the key that the
    GPIO handler posts for the action [name]. *)
Definition posted_key_effect (w : World) (name : string) : M unit :=
  handle_event w (mkEvent KEYDOWN (pygame_key name)).

(** [n] slashes. *)
Fixpoint slashes (n : nat) : string :=
  match n with
  | O => EmptyString
  | S k => String "/" (slashes k)
  end.

(** ** GPIO set-up ([__init__] and [_gpio_setup]) *)

Inductive GpioCall : Type :=
| gpio_setmode_board
| gpio_setup_input_pull_up (channel : Z)
| gpio_add_event_detect_falling (channel : Z) (bouncetime : Z).

(** What the set-up asks of the outside: [json.loads] of the pin-map
    setting ([None]: it raises), [int] of a key of the pin map
    ([None]: it raises), and the calls of RPi.GPIO, each of which goes
    through or raises. *)
Record Board : Type := {
  json_loads : string -> option (list (string * PyVal));
  int_of_key : string -> option Z;
  setmode_ok : bool;
  setup_ok : Z -> bool;
  add_event_detect_ok : Z -> bool
}.

(** The loop of [_gpio_setup] over the keys of the pin map: whether it
    went through, and the GPIO calls that did. *)
Fixpoint setup_pins (b : Board) (pins : list string) : bool * list GpioCall :=
  match pins with
  | [] => (true, [])
  | pin :: rest =>
      match int_of_key b pin with
      | None => (false, [])
      | Some channel =>
          if setup_ok b channel then
            if add_event_detect_ok b channel then
              let (ok, calls) := setup_pins b rest in
              (ok, gpio_setup_input_pull_up channel
                   :: gpio_add_event_detect_falling channel 200 :: calls)
            else (false, [gpio_setup_input_pull_up channel])
          else (false, [])
      end
  end.

Definition _gpio_setup (b : Board) (pinMap : option (list (string * PyVal)))
  : bool * list GpioCall :=
  match pinMap with
  | None => (true, [])
  | Some pm =>
      if setmode_ok b then
        let (ok, calls) := setup_pins b (map fst pm) in
        (ok, gpio_setmode_board :: calls)
      else (false, [])
  end.

(** The end of [__init__]: the value [self._pinMap] gets for the
    setting [gpio_pin_map], and the GPIO calls that went through. *)
Definition init_pinMap (b : Board) (pinMapSetting : string)
  : option (list (string * PyVal)) * list GpioCall :=
  if String.eqb pinMapSetting "" then (None, [])
  else
    match json_loads b ("{" ++ pinMapSetting ++ "}")%string with
    | None => (None, [])
    | Some pm =>
        let (ok, calls) := _gpio_setup b (Some pm) in
        (if ok then Some pm else None, calls)
    end.

(** The channel of a key that the set-up gets registered. *)
Definition accepts (b : Board) (pin : string) : option Z :=
  match int_of_key b pin with
  | Some channel =>
      if setup_ok b channel && add_event_detect_ok b channel
      then Some channel else None
  | None => None
  end.

(** What the set-up leaves behind for a key it could not register. *)
Definition half_done (b : Board) (pin : string) : list GpioCall :=
  match int_of_key b pin with
  | Some channel =>
      if setup_ok b channel then [gpio_setup_input_pull_up channel] else []
  | None => []
  end.

(** Input with pull-up and detection of the falling edge with a
    bounce time of 200 ms, for each channel. *)
Definition registrations (channels : list Z) : list GpioCall :=
  flat_map (fun channel => [gpio_setup_input_pull_up channel;
                            gpio_add_event_detect_falling channel 200])
           channels.

(** ** Further worlds of the examples *)

Module MoreExamples.

(** A stick whose software-volume sidecar says [inf]. *)
Definition inf_stick : World :=
  {| search_paths := ["/mnt/usb"]%string;
     isfile := fun _ => false;
     path_exists := fun p =>
       existsb (String.eqb p) ["/mnt/usb"; "/mnt/usb/sound_vol"]%string;
     isdir := fun p => String.eqb p "/mnt/usb";
     listdir := fun _ => [];
     readline := fun p =>
       if String.eqb p "/mnt/usb/sound_vol" then Some "inf"%string else None;
     build_playlist_m3u := fun _ => Raise PlaylistFileError;
     float := fun s =>
       if String.eqb s "inf" then FloatInf else FloatValueError;
     finished := false;
     is_playing := false;
     rnd := 0%nat |}.

(** A looper with the volume sidecars configured and nothing to play. *)
Definition idle_with_volumes : VideoLooper :=
  with_playlist (mkPlaylist []) (init Examples.cfg_volumes true).

Definition inf_tick : Tick := {| world := inf_stick; inputs := [] |}.

(** A string in double quotes, as JSON writes it. *)
Definition quoted (s : string) : string :=
  (String (ascii_of_N 34) s ++ String (ascii_of_N 34) EmptyString)%string.

(** The setting [gpio_pin_map] of a looper with two buttons, and the
    same setting with a key between them that is no number. *)
Definition two_buttons : string :=
  (quoted "11" ++ ": 1, " ++ quoted "13" ++ ": " ++ quoted "K_s")%string.

Definition bad_key_between : string :=
  (quoted "11" ++ ": 1, " ++ quoted "x" ++ ": 2, "
   ++ quoted "13" ++ ": " ++ quoted "K_s")%string.

(** A board on which every channel can be registered; [int] knows the
    keys 11 and 13. *)
Definition board : Board :=
  {| json_loads := fun s =>
       if String.eqb s ("{" ++ two_buttons ++ "}")
       then Some [("11"%string, PyInt 1); ("13"%string, PyStr "K_s")]
       else if String.eqb s ("{" ++ bad_key_between ++ "}")
       then Some [("11"%string, PyInt 1); ("x"%string, PyInt 2);
                  ("13"%string, PyStr "K_s")]
       else None;
     int_of_key := fun k =>
       if String.eqb k "11" then Some 11
       else if String.eqb k "13" then Some 13 else None;
     setmode_ok := true;
     setup_ok := fun _ => true;
     add_event_detect_ok := fun _ => true |}.

End MoreExamples.

(** * Properties *)

(** ** Equality of playlists *)

Lemma RepeatArg_eqb_eq a b : RepeatArg_eqb a b = true <-> a = b.
Proof.
  destruct a as [n | s], b as [m | t]; simpl;
    try (split; discriminate).
  - rewrite Z.eqb_eq. split; [intros -> | intros [= ->]]; reflexivity.
  - rewrite String.eqb_eq. split; [intros -> | intros [= ->]]; reflexivity.
Qed.

Lemma key_eqb_eq a b : key_eqb a b = true <-> a = b.
Proof.
  destruct a as [p r], b as [q t]. unfold key_eqb. simpl.
  rewrite andb_true_iff, String.eqb_eq, RepeatArg_eqb_eq.
  split; [intros [-> ->] | intros [= -> ->]]; auto.
Qed.

Lemma occurrences_count_occ k l :
  occurrences k l = count_occ key_eq_dec l k.
Proof.
  unfold occurrences. induction l as [| x l IH]; simpl; [reflexivity |].
  destruct (key_eq_dec x k) as [-> | Hne].
  - replace (key_eqb k k) with true by (symmetry; apply key_eqb_eq; auto).
    simpl. rewrite IH. reflexivity.
  - destruct (key_eqb k x) eqn:H; [| exact IH].
    apply key_eqb_eq in H. congruence.
Qed.

(** The spec's equality of Playlists: the (path, repeat) pairs of the
    one are a rearrangement of those of the other. *)
Lemma playlist_eqb_Permutation p q :
  playlist_eqb p q = true
  <-> Permutation (map movie_key (movies p)) (map movie_key (movies q)).
Proof.
  unfold playlist_eqb.
  rewrite (Permutation_count_occ key_eq_dec), forallb_forall.
  split.
  - intros H k. rewrite <- !occurrences_count_occ.
    destruct (in_dec key_eq_dec k
                (map movie_key (movies p) ++ map movie_key (movies q)))
      as [Hin | Hnin].
    + apply Nat.eqb_eq. exact (H k Hin).
    + rewrite !occurrences_count_occ.
      assert (Hp : ~ In k (map movie_key (movies p)))
        by (intro; apply Hnin, in_or_app; auto).
      assert (Hq : ~ In k (map movie_key (movies q)))
        by (intro; apply Hnin, in_or_app; auto).
      apply (count_occ_not_In key_eq_dec) in Hp, Hq. congruence.
  - intros H k _. apply Nat.eqb_eq.
    rewrite !occurrences_count_occ. apply H.
Qed.

(** A rebuild that finds the same movies compares equal, whatever the
    cursor of the current Playlist. *)
Lemma playlist_eqb_same_movies p q :
  movies p = movies q -> playlist_eqb p q = true.
Proof.
  intro H. apply playlist_eqb_Permutation. rewrite H. reflexivity.
Qed.

(** ** What a computation leaves alone *)

Section Frames.

Variable R : VideoLooper -> VideoLooper -> Prop.
Hypothesis R_refl : forall st, R st st.
Hypothesis R_trans : forall a b c, R a b -> R b c -> R a c.

Lemma stable_ret {A} (a : A) : stable R (ret a).
Proof. intro st. apply R_refl. Qed.

Lemma stable_get : stable R get.
Proof. intro st. apply R_refl. Qed.

Lemma stable_call c : stable R (call c).
Proof. intro st. apply R_refl. Qed.

Lemma stable_raise {A} e : stable R (@raise A e).
Proof. intro st. apply R_refl. Qed.

Lemma stable_lift {A} (r : Res A) : stable R (lift r).
Proof. intro st. apply R_refl. Qed.

Lemma stable_bind {A B} (m : M A) (f : A -> M B) :
  stable R m -> (forall a, stable R (f a)) -> stable R (bind m f).
Proof.
  intros Hm Hf st. unfold bind, state_of.
  specialize (Hm st). unfold state_of in Hm.
  destruct (m st) as [[[a | e] st1] t1]; simpl in *; auto.
  specialize (Hf a st1). unfold state_of in Hf.
  destruct (f a st1) as [[r st2] t2]; simpl in *.
  eapply R_trans; eauto.
Qed.

Lemma stable_modify f : (forall st, R st (f st)) -> stable R (modify f).
Proof. intros H st. apply H. Qed.

Lemma stable_on_other_thread m : stable R m -> stable R (on_other_thread m).
Proof.
  intros H st. specialize (H st). unfold on_other_thread, state_of in *.
  destruct (m st) as [[r st1] t1]; simpl in *; auto.
Qed.

End Frames.

Lemma silent_ret {A} (a : A) : silent (ret a).
Proof. intro st. reflexivity. Qed.

Lemma silent_get : silent get.
Proof. intro st. reflexivity. Qed.

Lemma silent_raise {A} e : silent (@raise A e).
Proof. intro st. reflexivity. Qed.

Lemma silent_lift {A} (r : Res A) : silent (lift r).
Proof. intro st. reflexivity. Qed.

Lemma silent_modify f : silent (modify f).
Proof. intro st. reflexivity. Qed.

Lemma silent_bind {A B} (m : M A) (f : A -> M B) :
  silent m -> (forall a, silent (f a)) -> silent (bind m f).
Proof.
  intros Hm Hf st. unfold bind, trace_of.
  specialize (Hm st). unfold trace_of in Hm.
  destruct (m st) as [[[a | e] st1] t1]; simpl in *; auto.
  specialize (Hf a st1). unfold trace_of in Hf.
  destruct (f a st1) as [[r st2] t2]; simpl in *.
  subst. reflexivity.
Qed.

Lemma only_volumes_refl st : only_volumes st st.
Proof. repeat split. Qed.

Lemma only_volumes_trans a b c :
  only_volumes a b -> only_volumes b c -> only_volumes a c.
Proof.
  unfold only_volumes. intros (?&?&?&?) (?&?&?&?).
  repeat split; congruence.
Qed.

Lemma stable_weaken (R S : VideoLooper -> VideoLooper -> Prop) {A}
      (m : M A) :
  (forall a b, R a b -> S a b) -> stable R m -> stable S m.
Proof. intros HRS H st. apply HRS, H. Qed.

(** Takes a goal [stable R m] apart along the shape of [m], for a
    relation [R] with the reflexivity proof [rfl] and the transitivity
    proof [trs]; [leaf] closes what is left. *)
Ltac frame_with R rfl trs leaf :=
  repeat first
    [ progress intros
    | leaf
    | apply (stable_bind R trs)
    | apply (stable_ret R rfl)
    | apply (stable_get R rfl)
    | apply (stable_call R rfl)
    | apply (stable_raise R rfl)
    | apply (stable_lift R rfl)
    | apply stable_on_other_thread
    | match goal with
      | |- stable _ (if ?b then _ else _) => destruct b
      | |- stable _ (match ?x with _ => _ end) => destruct x
      | |- stable _ (let (_, _) := ?x in _) => destruct x
      end ].

Ltac silent_steps leaf :=
  repeat first
    [ progress intros
    | leaf
    | apply silent_bind
    | apply silent_ret
    | apply silent_get
    | apply silent_raise
    | apply silent_lift
    | apply silent_modify
    | match goal with
      | |- silent (if ?b then _ else _) => destruct b
      | |- silent (match ?x with _ => _ end) => destruct x
      | |- silent (let (_, _) := ?x in _) => destruct x
      end ].

Ltac volumes_frame leaf :=
  frame_with only_volumes only_volumes_refl only_volumes_trans
    ltac:(first
      [ apply stable_modify; intro; unfold only_volumes; simpl;
        repeat split; fail
      | leaf ]).

Lemma read_alsa_hw_vol_frame w path :
  stable only_volumes (read_alsa_hw_vol w path).
Proof. unfold read_alsa_hw_vol, set_alsa_hw_vol. volumes_frame fail. Qed.

Lemma read_sound_vol_frame w path :
  stable only_volumes (read_sound_vol w path).
Proof. unfold read_sound_vol, set_sound_vol. volumes_frame fail. Qed.

Lemma scan_paths_frame w paths :
  forall movies, stable only_volumes (scan_paths w movies paths).
Proof.
  induction paths as [| path rest IH]; intro movies; simpl.
  - volumes_frame fail.
  - volumes_frame ltac:(first [ apply IH
                              | apply read_alsa_hw_vol_frame
                              | apply read_sound_vol_frame ]).
Qed.

Lemma build_from_all_files_frame w :
  stable only_volumes (_build_playlist_from_all_files w).
Proof.
  unfold _build_playlist_from_all_files.
  volumes_frame ltac:(apply scan_paths_frame).
Qed.

Lemma build_from_playlist_file_frame w p :
  stable only_volumes (build_from_playlist_file w p).
Proof.
  unfold build_from_playlist_file.
  volumes_frame ltac:(apply build_from_all_files_frame).
Qed.

Lemma build_playlist_frame w : stable only_volumes (_build_playlist w).
Proof.
  unfold _build_playlist.
  volumes_frame ltac:(first [ apply build_from_all_files_frame
                            | apply build_from_playlist_file_frame ]).
Qed.

Lemma read_alsa_hw_vol_silent w path : silent (read_alsa_hw_vol w path).
Proof. unfold read_alsa_hw_vol, set_alsa_hw_vol. silent_steps fail. Qed.

Lemma read_sound_vol_silent w path : silent (read_sound_vol w path).
Proof. unfold read_sound_vol, set_sound_vol. silent_steps fail. Qed.

Lemma scan_paths_silent w paths :
  forall movies, silent (scan_paths w movies paths).
Proof.
  induction paths as [| path rest IH]; intro movies; simpl.
  - silent_steps fail.
  - silent_steps ltac:(first [ apply IH
                             | apply read_alsa_hw_vol_silent
                             | apply read_sound_vol_silent ]).
Qed.

Lemma build_from_all_files_silent w :
  silent (_build_playlist_from_all_files w).
Proof.
  unfold _build_playlist_from_all_files.
  silent_steps ltac:(apply scan_paths_silent).
Qed.

Lemma build_from_playlist_file_silent w p :
  silent (build_from_playlist_file w p).
Proof.
  unfold build_from_playlist_file.
  silent_steps ltac:(apply build_from_all_files_silent).
Qed.

Lemma build_playlist_silent w : silent (_build_playlist w).
Proof.
  unfold _build_playlist.
  silent_steps ltac:(first [ apply build_from_all_files_silent
                           | apply build_from_playlist_file_silent ]).
Qed.

Lemma build_playlist_outcome w st :
  exists r st1,
    _build_playlist w st = (r, st1, []) /\ only_volumes st st1.
Proof.
  pose proof (build_playlist_frame w st) as Hf.
  pose proof (build_playlist_silent w st) as Hs.
  unfold state_of, trace_of in *.
  destruct (_build_playlist w st) as [[r st1] tr]; simpl in *.
  subst. eauto.
Qed.

(** Unfolds the monad of a computation on a state. *)
Create HintDb looper.
#[local] Hint Unfold bind ret get call raise lift modify the_playlist
  set_playlist set_running set_playbackStopped set_alsa_hw_vol
  set_sound_vol : looper.

Ltac run_m := repeat (progress (autounfold with looper; simpl)).

(** ** Playback on an empty playlist *)

(** C7.  When the current Playlist is empty (length 0), [_play_next] and
    [_play_previous] are no-ops: each is entered and returns at once,
    without asking the Playlist for a movie, without any call to the
    Player, and with the state of the Controller as it was. *)
Theorem play_on_empty_playlist_is_noop (w : World) (st : VideoLooper)
        (pl : Playlist) :
  _playlist st = Some pl ->
  Model.length pl = 0 ->
  _play_next w st = (Ok tt, st, [play_next_called])
  /\ _play_previous w st = (Ok tt, st, [play_previous_called]).
Proof.
  intros Hpl Hlen. unfold _play_next, _play_previous. run_m.
  rewrite Hpl. simpl. rewrite Hlen. simpl. split; reflexivity.
Qed.

Lemma play_on_empty_playlist_is_noop_witness :
  _play_next (Examples.usb true false) Examples.nothing_to_play
  = (Ok tt, Examples.nothing_to_play, [play_next_called])
  /\ _play_previous (Examples.usb true false) Examples.nothing_to_play
     = (Ok tt, Examples.nothing_to_play, [play_previous_called]).
Proof.
  apply (play_on_empty_playlist_is_noop _ _ (mkPlaylist []));
    reflexivity.
Defined.

(** ** Frames of playback and of the key handler *)

Lemma keeps_flags_refl st : keeps_flags st st.
Proof. repeat split. Qed.

Lemma keeps_flags_trans a b c :
  keeps_flags a b -> keeps_flags b c -> keeps_flags a c.
Proof.
  unfold keeps_flags. intros (?&?&?) (?&?&?). repeat split; congruence.
Qed.

Lemma only_volumes_keeps_flags st st' :
  only_volumes st st' -> keeps_flags st st'.
Proof. intros (?&?&?&?). repeat split; assumption. Qed.

Lemma key_frame_refl st : key_frame st st.
Proof. repeat split; auto. Qed.

Lemma key_frame_trans a b c :
  key_frame a b -> key_frame b c -> key_frame a c.
Proof.
  unfold key_frame. intros (?&?&?) (?&?&?).
  repeat split; [congruence | congruence | auto].
Qed.

Lemma keeps_flags_key_frame st st' : keeps_flags st st' -> key_frame st st'.
Proof. intros (?&?&?). repeat split; congruence. Qed.

Ltac flags_frame leaf :=
  frame_with keeps_flags keeps_flags_refl keeps_flags_trans
    ltac:(first
      [ apply stable_modify; intro; unfold keeps_flags; simpl;
        repeat split; fail
      | leaf ]).

Lemma build_playlist_keeps_flags w : stable keeps_flags (_build_playlist w).
Proof.
  apply (stable_weaken only_volumes).
  - apply only_volumes_keeps_flags.
  - apply build_playlist_frame.
Qed.

Lemma the_playlist_keeps_flags : stable keeps_flags the_playlist.
Proof. unfold the_playlist. flags_frame fail. Qed.

Lemma play_next_keeps_flags w : stable keeps_flags (_play_next w).
Proof.
  unfold _play_next, set_playlist.
  flags_frame ltac:(apply the_playlist_keeps_flags).
Qed.

Lemma play_previous_keeps_flags w : stable keeps_flags (_play_previous w).
Proof.
  unfold _play_previous, set_playlist.
  flags_frame ltac:(apply the_playlist_keeps_flags).
Qed.

Ltac key_frame_steps leaf :=
  frame_with key_frame key_frame_refl key_frame_trans
    ltac:(first
      [ apply stable_modify; intro; unfold key_frame; simpl;
        repeat split; auto; fail
      | apply (stable_weaken keeps_flags key_frame _ keeps_flags_key_frame);
        first [ apply play_next_keeps_flags
              | apply play_previous_keeps_flags
              | apply build_playlist_keeps_flags ]
      | leaf ]).

Lemma handle_event_frame w e : stable key_frame (handle_event w e).
Proof.
  unfold handle_event, set_running, set_playlist.
  destruct e as [[|] [k|]]; simpl; key_frame_steps fail.
Qed.

Lemma handle_events_frame w es : stable key_frame (handle_events w es).
Proof.
  induction es as [| e rest IH]; simpl.
  - key_frame_steps fail.
  - key_frame_steps ltac:(first [ apply handle_event_frame | apply IH ]).
Qed.

(** ** The Stop key *)

(** C4, as the code has it.  On the key-down of [s] the Controller
    tells the Player to stop (without a fade) and changes nothing of
    its own state: [_playbackStopped] stays as it was, so the main loop
    goes on as before.  No key event at all changes [_playbackStopped]. *)
Theorem stop_key_only_stops_the_player (w : World) (st : VideoLooper) :
  handle_event w (mkEvent KEYDOWN (Some K_s)) st
  = (Ok tt, st, [player_stop None])
  /\ forall e : Event,
       _playbackStopped (state_of (handle_event w e st))
       = _playbackStopped st.
Proof.
  split.
  - reflexivity.
  - intro e. apply (handle_event_frame w e st).
Qed.

(** C4 does not hold as stated: after the [s] key the flag is still
    false, and the next pass of the main loop takes the branch of
    running playback: it asks the Player whether the movie is finished
    and starts the next one. *)
Lemma stop_key_sets_flag_counterexample :
  let st' := state_of (handle_event (Examples.usb true false)
                                    Examples.s_key
                                    (Examples.playing_a false)) in
  _playbackStopped st' = false
  /\ trace_of (loop_body (Examples.usb true false) st')
     = [player_finished; play_next_called; playlist_next_movie false;
        player_play "/mnt/usb/b.mp4" 0; sleep 5].
Proof. vm_compute. split; reflexivity. Qed.

(** ** The GPIO handler *)

(** The handler on a trigger that is not suppressed. *)
Lemma gpio_unsuppressed (w : World) (pin : Z) (st : VideoLooper)
      (pinMap : list (string * PyVal)) (action : PyVal) :
  _pinMap (config st) = Some pinMap ->
  _gpio_control_disabled_while_playback (config st) && is_playing w = false ->
  lookup (str pin) pinMap = Some action ->
  _handle_gpio_control w pin st
  = let asked := if _gpio_control_disabled_while_playback (config st)
                 then [player_is_playing] else [] in
    if is_key_action action then
      match action with
      | PyStr name =>
          (Ok tt, st, asked ++ [event_post (mkEvent KEYDOWN (pygame_key name))])
      | _ => (Ok tt, st, asked)
      end
    else
      match _playlist st with
      | Some pl =>
          (Ok tt,
           with_playbackStopped false (with_playlist (set_next action pl) st),
           asked ++ [playlist_set_next action; player_stop (Some 3)])
      | None => (Raise AttributeError, st, asked)
      end.
Proof.
  intros Hmap Hsup Hlook. unfold _handle_gpio_control. run_m.
  rewrite Hmap.
  destruct (_gpio_control_disabled_while_playback (config st));
    simpl in *; [rewrite Hsup; simpl |]; rewrite Hlook;
    destruct (is_key_action action); simpl;
    try (destruct action; reflexivity);
    destruct (_playlist st); reflexivity.
Qed.

(** C10.  For a trigger that is not suppressed, the action of the pin is
    a key action exactly when it is one of the eight listed names, and
    then the matching key-down event is posted and nothing else
    happens.  Every other action, [K_RIGHT] and [K_LEFT] included, is
    handed to the Playlist's [set_next], the Player is stopped with a
    fade of 3 seconds and [_playbackStopped] is cleared. *)
Theorem gpio_action_dispatch (w : World) (pin : Z) (st : VideoLooper)
        (pinMap : list (string * PyVal)) (action : PyVal) (pl : Playlist) :
  _pinMap (config st) = Some pinMap ->
  _gpio_control_disabled_while_playback (config st) && is_playing w = false ->
  lookup (str pin) pinMap = Some action ->
  _playlist st = Some pl ->
  let asked := if _gpio_control_disabled_while_playback (config st)
               then [player_is_playing] else [] in
  (is_key_action action = true <->
   In action [PyStr "K_ESCAPE"; PyStr "K_k"; PyStr "K_s"; PyStr "K_SPACE";
              PyStr "K_p"; PyStr "K_b"; PyStr "K_o"; PyStr "K_i"])
  /\ (if is_key_action action then
        exists name k,
          action = PyStr name /\ pygame_key name = Some k
          /\ _handle_gpio_control w pin st
             = (Ok tt, st, asked ++ [event_post (mkEvent KEYDOWN (Some k))])
      else
        _handle_gpio_control w pin st
        = (Ok tt,
           with_playbackStopped false (with_playlist (set_next action pl) st),
           asked ++ [playlist_set_next action; player_stop (Some 3)]))
  /\ is_key_action (PyStr "K_RIGHT") = false
  /\ is_key_action (PyStr "K_LEFT") = false.
Proof.
  intros Hmap Hsup Hlook Hpl asked.
  assert (Hiff : is_key_action action = true <->
           In action [PyStr "K_ESCAPE"; PyStr "K_k"; PyStr "K_s";
                      PyStr "K_SPACE"; PyStr "K_p"; PyStr "K_b";
                      PyStr "K_o"; PyStr "K_i"]).
  { destruct action as [n | name |]; simpl.
    - split; [discriminate | intros H; repeat destruct H as [H | H];
                              try discriminate; contradiction].
    - rewrite !orb_true_iff, !String.eqb_eq.
      split.
      + intros H. repeat destruct H as [H | H]; subst; simpl; auto 10.
        discriminate.
      + intros H. repeat destruct H as [H | H];
          try (injection H as <-); auto 10; contradiction.
    - split; [discriminate | intros H; repeat destruct H as [H | H];
                              try discriminate; contradiction]. }
  split; [exact Hiff |]. split; [| split; reflexivity].
  rewrite (gpio_unsuppressed w pin st pinMap action Hmap Hsup Hlook).
  fold asked. simpl. rewrite Hpl.
  destruct (is_key_action action) eqn:Hka; [| reflexivity].
  destruct action as [n | name |]; try discriminate.
  pose proof (proj1 Hiff eq_refl) as Hin.
  assert (Hk : exists k, pygame_key name = Some k).
  { simpl in Hin. repeat destruct Hin as [Hin | Hin];
      try (injection Hin as <-; eexists; reflexivity); contradiction. }
  destruct Hk as [k Hk]. exists name, k. rewrite Hk. repeat split.
Qed.

Lemma gpio_action_dispatch_witness :
  _handle_gpio_control (Examples.usb false false) 11 (Examples.playing_a false)
  = (Ok tt,
     with_playbackStopped false
       (with_playlist
          (set_next (PyInt 1)
                    {| movies := [Examples.movie_a; Examples.movie_b];
                       cursor := 0; pending := None |})
          (Examples.playing_a false)),
     [playlist_set_next (PyInt 1); player_stop (Some 3)]).
Proof.
  destruct (gpio_action_dispatch
              (Examples.usb false false) 11 (Examples.playing_a false)
              [("11"%string, PyInt 1); ("13"%string, PyStr "K_s")]
              (PyInt 1)
              {| movies := [Examples.movie_a; Examples.movie_b];
                 cursor := 0; pending := None |}
              eq_refl eq_refl eq_refl eq_refl) as (_ & H & _).
  exact H.
Defined.

(** C5, as the code has it.  For a trigger that is not suppressed and
    whose pin action is an index of the playlist, the handler hands the
    index to the Playlist's [set_next], stops the Player with a fade of
    3 seconds and clears [_playbackStopped] itself; it does not call
    [_play_next].  The Next that commits the index comes from the main
    loop: in its next pass, once the Player reports the movie finished,
    [_play_next] plays the movie at that index and the cursor is there. *)
Theorem gpio_index_jump (w w' : World) (pin : Z) (st : VideoLooper)
        (pinMap : list (string * PyVal)) (i : Z) (pl : Playlist) (m : Movie) :
  _pinMap (config st) = Some pinMap ->
  _gpio_control_disabled_while_playback (config st) && is_playing w = false ->
  lookup (str pin) pinMap = Some (PyInt i) ->
  _playlist st = Some pl ->
  0 <= i ->
  nth_error (movies pl) (Z.to_nat i) = Some m ->
  finished w' = true ->
  let asked := if _gpio_control_disabled_while_playback (config st)
               then [player_is_playing] else [] in
  let st1 := with_playbackStopped false
               (with_playlist (set_next (PyInt i) pl) st) in
  _handle_gpio_control w pin st
  = (Ok tt, st1, asked ++ [playlist_set_next (PyInt i); player_stop (Some 3)])
  /\ _playbackStopped st1 = false
  /\ check_finished w' st1
     = (Ok tt,
        with_playlist {| movies := movies pl; cursor := i; pending := None |}
                      st1,
        [player_finished; play_next_called;
         playlist_next_movie (_is_random (config st));
         player_play (path m) (_sound_vol st)]).
Proof.
  intros Hmap Hsup Hlook Hpl Hi Hnth Hfin asked st1.
  split; [| split; [reflexivity |]].
  - rewrite (gpio_unsuppressed w pin st pinMap (PyInt i) Hmap Hsup Hlook).
    simpl. rewrite Hpl. reflexivity.
  - assert (Hlen : i < Model.length pl).
    { unfold Model.length.
      assert (Z.to_nat i < List.length (movies pl))%nat
        by (apply nth_error_Some; congruence).
      lia. }
    assert (Hset : set_next (PyInt i) pl
                   = {| movies := movies pl; cursor := cursor pl;
                        pending := Some i |}).
    { simpl. replace (0 <=? i) with true by (symmetry; apply Z.leb_le; lia).
      replace (i <? Model.length pl) with true
        by (symmetry; apply Z.ltb_lt; lia).
      reflexivity. }
    subst st1. rewrite Hset.
    unfold check_finished, _play_next. run_m. rewrite Hfin. simpl.
    unfold Model.length in *. simpl.
    destruct (movies pl) as [| m0 ms] eqn:Hms.
    + destruct (Z.to_nat i); discriminate.
    + replace (Z.of_nat (List.length (m0 :: ms)) =? 0) with false
        by (symmetry; apply Z.eqb_neq; simpl List.length; lia).
      unfold next_movie. simpl. simpl in Hnth. rewrite Hnth. reflexivity.
Qed.

Lemma gpio_index_jump_witness :
  check_finished (Examples.usb true false)
    (with_playbackStopped false
       (with_playlist
          (set_next (PyInt 1)
                    {| movies := [Examples.movie_a; Examples.movie_b];
                       cursor := 0; pending := None |})
          (Examples.playing_a false)))
  = (Ok tt,
     with_playlist {| movies := [Examples.movie_a; Examples.movie_b];
                      cursor := 1; pending := None |}
       (with_playbackStopped false
          (with_playlist
             (set_next (PyInt 1)
                       {| movies := [Examples.movie_a; Examples.movie_b];
                          cursor := 0; pending := None |})
             (Examples.playing_a false))),
     [player_finished; play_next_called; playlist_next_movie false;
      player_play "/mnt/usb/b.mp4" 0]).
Proof.
  assert (H01 : 0 <= 1) by lia.
  destruct (gpio_index_jump
              (Examples.usb false false) (Examples.usb true false) 11
              (Examples.playing_a false)
              [("11"%string, PyInt 1); ("13"%string, PyStr "K_s")]
              1
              {| movies := [Examples.movie_a; Examples.movie_b];
                 cursor := 0; pending := None |}
              Examples.movie_b
              eq_refl eq_refl eq_refl eq_refl H01 eq_refl eq_refl)
    as (_ & _ & H).
  exact H.
Defined.

(** C5 does not hold as stated.  A trigger on a pin mapped to an index
    does nothing at all when GPIO control is disabled during playback
    and the Player is playing; and a trigger that is handled issues no
    Next: its trace has no call of [_play_next]. *)
Lemma gpio_index_jump_counterexample :
  _handle_gpio_control (Examples.usb false true) 11 (Examples.playing_a true)
  = (Ok tt, Examples.playing_a true, [player_is_playing])
  /\ play_next_calls
       (trace_of (_handle_gpio_control (Examples.usb false false) 11
                                       (Examples.playing_a false)))
     = 0%nat.
Proof. split; reflexivity. Qed.

(** ** Rebuilding the playlist in the main loop *)

Lemma next_movie_movies random n pl :
  movies (snd (next_movie random n pl)) = movies pl.
Proof.
  unfold next_movie. destruct (movies pl) eqn:H; simpl; auto.
Qed.

(** What one call of [_play_next] looks like from outside: its entry,
    then no further entry and no sleep; the movies of the playlist are
    the same afterwards. *)
Ltac split4 :=
  split; [reflexivity | split; [reflexivity | split; [reflexivity |]]].

Lemma play_next_outcome (w : World) (s : VideoLooper) :
  exists r s' t,
    _play_next w s = (r, s', play_next_called :: t)
    /\ play_next_calls t = 0%nat
    /\ sleeps t = 0%nat
    /\ forall pl, _playlist s = Some pl ->
         exists pl', _playlist s' = Some pl' /\ movies pl' = movies pl.
Proof.
  unfold _play_next. run_m.
  destruct (_playlist s) as [pl |] eqn:Hpl; simpl.
  - destruct (Model.length pl =? 0); simpl.
    + do 3 eexists. split4.
      intros pl0 H. injection H as <-. eauto.
    + pose proof (next_movie_movies (_is_random (config s)) (rnd w) pl) as Hm.
      destruct (next_movie (_is_random (config s)) (rnd w) pl)
        as [[m |] pl']; simpl in *.
      * do 3 eexists. split4.
        intros pl0 H. injection H as <-. exists pl'. auto.
      * do 3 eexists. split4.
        intros pl0 H. injection H as <-. exists pl'. auto.
  - do 3 eexists. split4. intros pl0 H. discriminate.
Qed.

(** C1.  In a pass of the main loop with playback not stopped, after
    the finished-check the Controller rebuilds the Playlist once,
    compares it with the current one and then sleeps for the wait
    interval.  It replaces the current Playlist and enters [_play_next]
    exactly once if the rebuilt Playlist is not equal to the current
    one; if it is equal, the current Playlist (cursor included) is
    kept and [_play_next] is not entered. *)
Theorem rebuild_restarts_iff_changed (w : World) (st0 st st1 : VideoLooper)
        (tr0 : list Call) (cur new : Playlist) :
  _playbackStopped st0 = false ->
  check_finished w st0 = (Ok tt, st, tr0) ->
  _playlist st = Some cur ->
  _build_playlist w st = (Ok new, st1, []) ->
  exists r st' tr,
    check_changes w st = (r, st', tr)
    /\ play_next_calls tr = (if playlist_eqb new cur then 0 else 1)%nat
    /\ (if playlist_eqb new cur
        then r = Ok tt /\ tr = [] /\ _playlist st' = Some cur
        else exists pl', _playlist st' = Some pl' /\ movies pl' = movies new)
    /\ loop_body w st0
       = match r with
         | Ok _ => (Ok tt, st', tr0 ++ tr ++ [sleep (_wait_time (config st0))])
         | Raise e => (Raise e, st', tr0 ++ tr)
         end.
Proof.
  intros Hstopped Hfin Hcur Hbuild.
  destruct (build_playlist_outcome w st) as (r1 & st1' & Hb & Hvol).
  rewrite Hbuild in Hb. injection Hb as <- <-.
  destruct Hvol as (Hcfg & Hpl1 & _ & _).
  assert (Hloop : forall r st' tr,
             check_changes w st = (r, st', tr) ->
             loop_body w st0
             = match r with
               | Ok _ =>
                   (Ok tt, st', tr0 ++ tr ++ [sleep (_wait_time (config st0))])
               | Raise e => (Raise e, st', tr0 ++ tr)
               end).
  { intros r st' tr Hcc. unfold loop_body, bind, get, call.
    rewrite Hstopped. simpl. rewrite Hfin, Hcc.
    destruct r as [[] | e]; reflexivity. }
  assert (Hcc : check_changes w st
                = if playlist_eqb new cur then (Ok tt, st1, [])
                  else _play_next w (with_playlist new st1)).
  { unfold check_changes, bind, get, set_playlist, modify, ret.
    rewrite Hbuild. unfold differs. rewrite Hpl1, Hcur.
    destruct (playlist_eqb new cur); simpl; [reflexivity |].
    destruct (_play_next w (with_playlist new st1)) as [[r s'] t].
    reflexivity. }
  destruct (playlist_eqb new cur).
  - exists (Ok tt), st1, []. repeat split; auto.
    + congruence.
    + apply (Hloop _ _ _ Hcc).
  - destruct (play_next_outcome w (with_playlist new st1))
      as (r & s' & t & Hpn & Hcalls & _ & Hmov).
    rewrite Hpn in Hcc.
    exists r, s', (play_next_called :: t). repeat split.
    + exact Hcc.
    + unfold play_next_calls in *. simpl. rewrite Hcalls. reflexivity.
    + apply (Hmov new). reflexivity.
    + apply (Hloop _ _ _ Hcc).
Qed.

Lemma rebuild_restarts_iff_changed_witness :
  exists r st' tr,
    check_changes (Examples.usb false false) (Examples.playing_a false)
    = (r, st', tr)
    /\ play_next_calls tr = 0%nat
    /\ (r = Ok tt /\ tr = []
        /\ _playlist st' = _playlist (Examples.playing_a false))
    /\ loop_body (Examples.usb false false) (Examples.playing_a false)
       = match r with
         | Ok _ => (Ok tt, st', [player_finished] ++ tr ++ [sleep 5])
         | Raise e => (Raise e, st', [player_finished] ++ tr)
         end.
Proof.
  exact (rebuild_restarts_iff_changed
           (Examples.usb false false)
           (Examples.playing_a false) (Examples.playing_a false)
           (Examples.playing_a false)
           [player_finished]
           {| movies := [Examples.movie_a; Examples.movie_b];
              cursor := 0; pending := None |}
           (mkPlaylist [Examples.movie_a; Examples.movie_b])
           eq_refl eq_refl eq_refl eq_refl).
Defined.

(** A file appeared on the stick: the rebuilt playlist differs, it
    replaces the current one and [_play_next] starts it from its first
    movie, once. *)
Example rebuild_after_a_file_was_added :
  check_changes (Examples.usb false false) Examples.playing_b_only
  = (Ok tt,
     with_playlist {| movies := [Examples.movie_a; Examples.movie_b];
                      cursor := 0; pending := None |}
                   Examples.playing_b_only,
     [play_next_called; playlist_next_movie false;
      player_play "/mnt/usb/a_repeat_3x.mp4" 0]).
Proof. reflexivity. Qed.

(** ** Repeat counts and advancement *)

(** C2, as the code has it.  The Controller keeps no replay count: an
    advancement triggered by [finished()] asks the Playlist for its
    next movie exactly once and plays the movie it gets, and nothing
    of the Controller's state changes but the Playlist.  With the
    sequential [next] of the Playlist the cursor moves on at every
    advancement, whatever the repeat count of the movie. *)
Theorem advancement_asks_playlist_once (w : World) (st : VideoLooper)
        (pl pl' : Playlist) (m : Movie) :
  finished w = true ->
  _playlist st = Some pl ->
  next_movie (_is_random (config st)) (rnd w) pl = (Some m, pl') ->
  check_finished w st
  = (Ok tt, with_playlist pl' st,
     [player_finished; play_next_called;
      playlist_next_movie (_is_random (config st));
      player_play (path m) (_sound_vol st)])
  /\ (_is_random (config st) = false -> pending pl = None ->
      cursor pl' = (cursor pl + 1) mod Model.length pl).
Proof.
  intros Hfin Hpl Hnext. split.
  - unfold check_finished, _play_next. run_m. rewrite Hfin. simpl.
    rewrite Hpl. simpl.
    assert (Hne : (Model.length pl =? 0) = false).
    { unfold next_movie in Hnext. unfold Model.length.
      destruct (movies pl); [discriminate | reflexivity]. }
    rewrite Hne. simpl. rewrite Hnext. reflexivity.
  - intros Hseq Hpend. unfold next_movie in Hnext.
    rewrite Hseq, Hpend in Hnext.
    destruct (movies pl); [discriminate |].
    injection Hnext as _ <-. reflexivity.
Qed.

Lemma advancement_asks_playlist_once_witness :
  check_finished (Examples.usb true false) (Examples.playing_a false)
  = (Ok tt,
     with_playlist {| movies := [Examples.movie_a; Examples.movie_b];
                      cursor := 1; pending := None |}
                   (Examples.playing_a false),
     [player_finished; play_next_called; playlist_next_movie false;
      player_play "/mnt/usb/b.mp4" 0]).
Proof.
  exact (proj1 (advancement_asks_playlist_once
                  (Examples.usb true false) (Examples.playing_a false)
                  {| movies := [Examples.movie_a; Examples.movie_b];
                     cursor := 0; pending := None |}
                  {| movies := [Examples.movie_a; Examples.movie_b];
                     cursor := 1; pending := None |}
                  Examples.movie_b eq_refl eq_refl eq_refl)).
Defined.

(** C2 does not hold as stated: on a stick with [a_repeat_3x.mp4]
    (repeat count 3) and [b.mp4] the looper plays [a] once, and the
    first finished-triggered advancement already goes on to [b]. *)
Lemma repeat_three_counterexample :
  repeat_count (repeat Examples.movie_a) = Some 3
  /\ played (trace_of (run (Examples.usb false false)
                           [Examples.tick true []; Examples.tick true []]
                           (init (Examples.cfg false None) true)))
     = ["/mnt/usb/a_repeat_3x.mp4"; "/mnt/usb/b.mp4";
        "/mnt/usb/a_repeat_3x.mp4"]%string.
Proof. vm_compute. split; reflexivity. Qed.

(** ** Resolving the playlist file *)

Lemma bind_get_run {A} (f : VideoLooper -> M A) (st : VideoLooper) :
  bind get f st = f st st.
Proof.
  unfold bind, get. destruct (f st st) as [[r s] t]. reflexivity.
Qed.

Lemma first_resolving_find w p paths :
  first_resolving w p paths
  = find (isfile w) (map (fun d => PosixPath.join d p) paths).
Proof.
  induction paths as [| d rest IH]; simpl; [reflexivity |].
  destruct (isfile w (PosixPath.join d p)); [reflexivity | exact IH].
Qed.

Lemma scan_of_no_path w st :
  search_paths w = [] ->
  _build_playlist_from_all_files w st = (Ok (mkPlaylist []), st, []).
Proof.
  intro H. unfold _build_playlist_from_all_files. rewrite H. reflexivity.
Qed.

(** C3.  With a playlist-file path configured, [_build_playlist] uses
    an absolute path directly and looks for a relative path under each
    search path of the FileReader in order.  When the path is missing
    or resolves under no search path, and when the resolved path has
    an extension other than [.m3u] and [.m3u8], the result is that of
    the full directory scan and nothing else; a resolved path with a
    recognised extension goes to the playlist-file builder. *)
Theorem playlist_file_resolution (w : World) (st : VideoLooper)
        (playlist_path : string) :
  playlist_path_option (config st) = Some playlist_path ->
  playlist_path <> ""%string ->
  _build_playlist w st
  = match resolved w playlist_path with
    | Some p =>
        if recognised p then (build_playlist_m3u w p, st, [])
        else _build_playlist_from_all_files w st
    | None => _build_playlist_from_all_files w st
    end.
Proof.
  intros Hopt Hne.
  assert (Hfile : forall p,
            build_from_playlist_file w p st
            = if recognised p then (build_playlist_m3u w p, st, [])
              else _build_playlist_from_all_files w st).
  { intro p. unfold build_from_playlist_file, recognised.
    destruct (_ || _); reflexivity. }
  unfold _build_playlist, resolved.
  rewrite bind_get_run, Hopt.
  apply String.eqb_neq in Hne. rewrite Hne. simpl negb. cbv iota.
  destruct (PosixPath.isabs playlist_path).
  - destruct (isfile w playlist_path); simpl; [apply Hfile | reflexivity].
  - rewrite <- first_resolving_find.
    destruct (search_paths w) as [| d rest] eqn:Hpaths.
    + simpl. rewrite (scan_of_no_path w st Hpaths). reflexivity.
    + destruct (first_resolving w playlist_path (d :: rest)) as [p |];
        [apply Hfile | reflexivity].
Qed.

Lemma playlist_file_resolution_witness :
  _build_playlist (Examples.usb false false)
                  (Examples.with_playlist_file "list.m3u")
  = _build_playlist_from_all_files
      (Examples.usb false false) (Examples.with_playlist_file "list.m3u").
Proof.
  assert (Hne : "list.m3u"%string <> ""%string) by discriminate.
  exact (playlist_file_resolution
           (Examples.usb false false)
           (Examples.with_playlist_file "list.m3u") "list.m3u"
           eq_refl Hne).
Defined.

(** ** Leaving the main loop *)











(** ** The volume sidecars *)

Lemma last_such_cons {A} (f : A -> bool) (a : A) (l : list A) :
  last_such f (a :: l)
  = match last_such f l with
    | Some x => Some x
    | None => if f a then Some a else None
    end.
Proof.
  unfold last_such. simpl.
  induction (rev l) as [| y t IH]; simpl; [reflexivity |].
  destruct (f y); [reflexivity | exact IH].
Qed.

Lemma read_alsa_hw_vol_step w path st s1 t :
  read_alsa_hw_vol w path st = (Ok tt, s1, t) ->
  config s1 = config st
  /\ _sound_vol s1 = _sound_vol st
  /\ _alsa_hw_vol s1
     = if negb (String.eqb (_alsa_hw_vol_file (config st)) "")
          && path_exists w (in_dir path (_alsa_hw_vol_file (config st)))
       then readline w (in_dir path (_alsa_hw_vol_file (config st)))
       else _alsa_hw_vol st.
Proof.
  unfold read_alsa_hw_vol. rewrite bind_get_run. cbv zeta.
  destruct (negb (String.eqb (_alsa_hw_vol_file (config st)) "")); simpl.
  - destruct (path_exists w (in_dir path (_alsa_hw_vol_file (config st)))).
    + destruct (readline w (in_dir path (_alsa_hw_vol_file (config st))));
        intro H; [| discriminate].
      injection H as <- _. repeat split.
    + intro H. injection H as <- _. repeat split.
  - intro H. injection H as <- _. repeat split.
Qed.

Lemma read_sound_vol_step w path st s1 t :
  read_sound_vol w path st = (Ok tt, s1, t) ->
  config s1 = config st
  /\ _alsa_hw_vol s1 = _alsa_hw_vol st
  /\ if negb (String.eqb (_sound_vol_file (config st)) "")
        && path_exists w (in_dir path (_sound_vol_file (config st)))
        && match readline w (in_dir path (_sound_vol_file (config st))) with
           | Some s => _is_number w s
           | None => false
           end
     then exists s,
            readline w (in_dir path (_sound_vol_file (config st))) = Some s
            /\ float w s = FloatFinite (_sound_vol s1)
     else _sound_vol s1 = _sound_vol st.
Proof.
  unfold read_sound_vol. rewrite bind_get_run. cbv zeta.
  destruct (negb (String.eqb (_sound_vol_file (config st)) "")); simpl.
  - destruct (path_exists w (in_dir path (_sound_vol_file (config st))));
      simpl.
    + destruct (readline w (in_dir path (_sound_vol_file (config st))))
        as [s |]; [| discriminate].
      destruct (_is_number w s) eqn:Hnum.
      * unfold bind, lift, int_of_float, set_sound_vol, modify.
        destruct (float w s) eqn:Hfl; try discriminate.
        intro H. injection H as <- _. repeat split. exists s. auto.
      * intro H. injection H as <- _. repeat split.
    + intro H. injection H as <- _. repeat split.
  - intro H. injection H as <- _. repeat split.
Qed.

Lemma scan_paths_volumes w paths :
  forall movies st ms st' tr,
    scan_paths w movies paths st = (Ok ms, st', tr) ->
    config st' = config st
    /\ _alsa_hw_vol st'
       = match last_such (has_hw_sidecar w (config st)) paths with
         | Some p => readline w (in_dir p (_alsa_hw_vol_file (config st)))
         | None => _alsa_hw_vol st
         end
    /\ match last_such (has_sw_number w (config st)) paths with
       | Some p =>
           exists s,
             readline w (in_dir p (_sound_vol_file (config st))) = Some s
             /\ float w s = FloatFinite (_sound_vol st')
       | None => _sound_vol st' = _sound_vol st
       end.
Proof.
  induction paths as [| path rest IH]; intros movies st ms st' tr Hscan.
  - simpl in Hscan. injection Hscan as _ <- _. repeat split.
  - rewrite !last_such_cons. simpl in Hscan.
    unfold has_hw_sidecar at 2, has_sw_number at 2, scanned.
    destruct (path_exists w path) eqn:Hex; simpl in Hscan;
      [destruct (isdir w path) eqn:Hdir; simpl in Hscan |].
    + rewrite bind_get_run in Hscan. unfold bind at 1, lift in Hscan.
      destruct (collect_movies (supported_extensions (config st)) path
                               (listdir w path)) as [found | e];
        [| discriminate].
      unfold bind at 1 in Hscan.
      destruct (read_alsa_hw_vol w path st) as [[[[] | e] s1] t1] eqn:Halsa;
        [| discriminate].
      unfold bind at 1 in Hscan.
      destruct (read_sound_vol w path s1) as [[[[] | e] s2] t2] eqn:Hsound;
        [| discriminate].
      destruct (scan_paths w (movies ++ found) rest s2)
        as [[[ms' | e] s3] t3] eqn:Hrest; [| discriminate].
      injection Hscan as _ <- _.
      destruct (read_alsa_hw_vol_step _ _ _ _ _ Halsa) as (Hc1 & Hs1 & Hh1).
      destruct (read_sound_vol_step _ _ _ _ _ Hsound) as (Hc2 & Hh2 & Hs2).
      destruct (IH _ _ _ _ _ Hrest) as (Hc3 & Hh3 & Hs3).
      rewrite Hc2, Hc1 in *. simpl.
      split; [congruence |]. split.
      * rewrite Hh3.
        destruct (last_such (has_hw_sidecar w (config st)) rest);
          [reflexivity |].
        rewrite Hh2, Hh1.
        destruct (negb (String.eqb (_alsa_hw_vol_file (config st)) "")
                  && path_exists w
                       (in_dir path (_alsa_hw_vol_file (config st))));
          reflexivity.
      * destruct (last_such (has_sw_number w (config st)) rest);
          [exact Hs3 |].
        rewrite Hs3.
        destruct (negb (String.eqb (_sound_vol_file (config st)) "")
                  && path_exists w (in_dir path (_sound_vol_file (config st)))
                  && match readline w
                             (in_dir path (_sound_vol_file (config st))) with
                     | Some s => _is_number w s
                     | None => false
                     end).
        -- destruct Hs2 as (s & Hrl & Hfl). exists s. auto.
        -- congruence.
    + destruct (IH _ _ _ _ _ Hscan) as (Hc3 & Hh3 & Hs3).
      split; [exact Hc3 |]. split.
      * rewrite Hh3.
        destruct (last_such (has_hw_sidecar w (config st)) rest); reflexivity.
      * destruct (last_such (has_sw_number w (config st)) rest);
          [exact Hs3 | exact Hs3].
    + destruct (IH _ _ _ _ _ Hscan) as (Hc3 & Hh3 & Hs3).
      split; [exact Hc3 |]. split.
      * rewrite Hh3.
        destruct (last_such (has_hw_sidecar w (config st)) rest); reflexivity.
      * destruct (last_such (has_sw_number w (config st)) rest);
          [exact Hs3 | exact Hs3].
Qed.

(** C8, as the code has it.  After a full scan that went through, each
    of the two volumes holds the value of the last search path that
    has one, not of the first: the hardware volume is the first line
    of the last hardware-volume sidecar found, taken as it is, with no
    check that it is a number or non-empty; the software volume is the
    integer part of the last software-volume sidecar whose first line
    is a number.  A missing sidecar, and for the software volume a line
    that is no number, leaves the value as it was. *)
Theorem sidecar_volumes_last_wins (w : World) (st st' : VideoLooper)
        (pl : Playlist) (tr : list Call) :
  _build_playlist_from_all_files w st = (Ok pl, st', tr) ->
  _alsa_hw_vol st'
  = match last_such (has_hw_sidecar w (config st)) (search_paths w) with
    | Some p => readline w (in_dir p (_alsa_hw_vol_file (config st)))
    | None => _alsa_hw_vol st
    end
  /\ match last_such (has_sw_number w (config st)) (search_paths w) with
     | Some p =>
         exists s,
           readline w (in_dir p (_sound_vol_file (config st))) = Some s
           /\ float w s = FloatFinite (_sound_vol st')
     | None => _sound_vol st' = _sound_vol st
     end.
Proof.
  unfold _build_playlist_from_all_files, bind, ret. intro H.
  destruct (scan_paths w [] (search_paths w) st) as [[[ms | e] s1] t1] eqn:Hs;
    [| discriminate].
  injection H as _ <- _.
  destruct (scan_paths_volumes _ _ _ _ _ _ _ Hs) as (_ & Hh & Hv).
  split; assumption.
Qed.

Lemma sidecar_volumes_last_wins_witness :
  _alsa_hw_vol (state_of (_build_playlist_from_all_files
                            Examples.two_sticks
                            (init Examples.cfg_volumes true)))
  = Some "loud"%string.
Proof.
  exact (proj1 (sidecar_volumes_last_wins
                  Examples.two_sticks (init Examples.cfg_volumes true)
                  _ _ _ eq_refl)).
Defined.

(** C8 does not hold as stated: with a sidecar pair on each of two
    sticks, the values of the second stick win (the software volume is
    200, not 100), and the hardware volume takes the second stick's
    line although it is no number. *)
Lemma first_sidecar_wins_counterexample :
  let st' := state_of (_build_playlist_from_all_files
                         Examples.two_sticks
                         (init Examples.cfg_volumes true)) in
  _alsa_hw_vol st' = Some "loud"%string /\ _sound_vol st' = 200.
Proof. vm_compute. split; reflexivity. Qed.

(** ** The repeat count of a scanned file *)



















(** * Further properties of the Controller *)

(** ** What the builder and the handlers never do *)

(** X1.  Building the playlist, from a playlist file or by the full
    scan, with or without an exception, calls neither the Player nor
    the Playlist and never sleeps, and of the Controller's state it
    can change the two volumes only. *)
Theorem build_playlist_touches_only_volumes (w : World) (st : VideoLooper) :
  trace_of (_build_playlist w st) = []
  /\ config (state_of (_build_playlist w st)) = config st
  /\ _playlist (state_of (_build_playlist w st)) = _playlist st
  /\ _running (state_of (_build_playlist w st)) = _running st
  /\ _playbackStopped (state_of (_build_playlist w st)) = _playbackStopped st.
Proof.
  split; [apply build_playlist_silent |].
  exact (build_playlist_frame w st).
Qed.

(** X2.  The GPIO handler never starts a movie: whatever the pin, the
    pin map, the Player's answer and the state, it neither enters
    [_play_next] nor calls [player.play], and it leaves the
    configuration, the running flag and the two volumes as they were. *)
Theorem gpio_handler_never_plays (w : World) (pin : Z) (st : VideoLooper) :
  let out := _handle_gpio_control w pin st in
  played (trace_of out) = []
  /\ play_next_calls (trace_of out) = 0%nat
  /\ config (state_of out) = config st
  /\ _running (state_of out) = _running st
  /\ _alsa_hw_vol (state_of out) = _alsa_hw_vol st
  /\ _sound_vol (state_of out) = _sound_vol st.
Proof.
  unfold _handle_gpio_control. run_m.
  destruct (_pinMap (config st)) as [pinMap |]; [| repeat split].
  destruct (_gpio_control_disabled_while_playback (config st)); simpl;
    [destruct (is_playing w); simpl; [repeat split |] |];
    (destruct (lookup (str pin) pinMap) as [action |]; [| repeat split];
     destruct (is_key_action action); simpl;
     [destruct action; repeat split |];
     destruct (_playlist st); repeat split).
Qed.

(** X3.  A trigger on a pin that the pin map does not hold raises a
    [KeyError] in the handler (when the trigger is not suppressed) and
    changes nothing. *)
Theorem gpio_unknown_pin_raises (w : World) (pin : Z) (st : VideoLooper)
        (pinMap : list (string * PyVal)) :
  _pinMap (config st) = Some pinMap ->
  _gpio_control_disabled_while_playback (config st) && is_playing w = false ->
  lookup (str pin) pinMap = None ->
  _handle_gpio_control w pin st
  = (Raise KeyError, st,
     if _gpio_control_disabled_while_playback (config st)
     then [player_is_playing] else []).
Proof.
  intros Hmap Hsup Hlook. unfold _handle_gpio_control. run_m.
  rewrite Hmap.
  destruct (_gpio_control_disabled_while_playback (config st));
    simpl in *; [rewrite Hsup; simpl |]; rewrite Hlook; reflexivity.
Qed.

Lemma gpio_unknown_pin_raises_witness :
  _handle_gpio_control (Examples.usb false false) 12 (Examples.playing_a false)
  = (Raise KeyError, Examples.playing_a false, []).
Proof.
  exact (gpio_unknown_pin_raises
           (Examples.usb false false) 12 (Examples.playing_a false)
           [("11"%string, PyInt 1); ("13"%string, PyStr "K_s")]
           eq_refl eq_refl eq_refl).
Defined.

(** ** Keys posted by the GPIO handler *)

(** X4.  Of the eight key names the GPIO handler posts as key-down
    events, the keyboard handler knows three: [K_ESCAPE] clears the
    running flag, [K_s] stops the Player, [K_SPACE] toggles the pause.
    The other five ([K_k], [K_p], [K_b], [K_o], [K_i]) are ignored:
    no call, no change of state. *)
Theorem posted_keys_mostly_ignored (w : World) (st : VideoLooper)
        (name : string) :
  In name key_action_names ->
  posted_key_effect w name st
  = if String.eqb name "K_ESCAPE" then (Ok tt, with_running false st, [])
    else if String.eqb name "K_s" then (Ok tt, st, [player_stop None])
    else if String.eqb name "K_SPACE" then (Ok tt, st, [player_toggle_pause])
    else (Ok tt, st, []).
Proof.
  intro Hin. simpl in Hin.
  repeat destruct Hin as [<- | Hin]; try reflexivity. contradiction.
Qed.

Lemma posted_keys_mostly_ignored_witness :
  posted_key_effect (Examples.usb false false) "K_p"
                    (Examples.playing_a false)
  = (Ok tt, Examples.playing_a false, []).
Proof.
  exact (posted_keys_mostly_ignored
           (Examples.usb false false) (Examples.playing_a false) "K_p"
           (or_intror (or_intror (or_intror (or_intror
              (or_introl eq_refl)))))).
Defined.

(** ** The Reload key *)

(** X5.  The key-down of [r] rebuilds the playlist and, when the build
    goes through, always replaces the current Playlist by the rebuilt
    one and enters [_play_next] exactly once: there is no comparison
    with the current Playlist, so a reload restarts playback also when
    nothing changed on disk. *)
Theorem reload_key_always_restarts (w : World) (st st1 : VideoLooper)
        (new : Playlist) :
  _build_playlist w st = (Ok new, st1, []) ->
  handle_event w (mkEvent KEYDOWN (Some K_r)) st
  = _play_next w (with_playlist new st1)
  /\ play_next_calls
       (trace_of (handle_event w (mkEvent KEYDOWN (Some K_r)) st)) = 1%nat
  /\ exists pl',
       _playlist (state_of (handle_event w (mkEvent KEYDOWN (Some K_r)) st))
       = Some pl'
       /\ movies pl' = movies new.
Proof.
  intro Hbuild.
  assert (Heq : handle_event w (mkEvent KEYDOWN (Some K_r)) st
                = _play_next w (with_playlist new st1)).
  { change (handle_event w (mkEvent KEYDOWN (Some K_r)) st)
      with ((pl <- _build_playlist w ;; set_playlist pl ;; _play_next w) st).
    unfold bind, set_playlist, modify. rewrite Hbuild.
    destruct (_play_next w (with_playlist new st1)) as [[r s'] t].
    reflexivity. }
  rewrite Heq. split; [reflexivity |].
  destruct (play_next_outcome w (with_playlist new st1))
    as (r & s' & t & Hpn & Hcalls & _ & Hmov).
  rewrite Hpn. unfold trace_of, state_of. simpl. split.
  - unfold play_next_calls in *. simpl. rewrite Hcalls. reflexivity.
  - apply (Hmov new). reflexivity.
Qed.

Lemma reload_key_always_restarts_witness :
  play_next_calls
    (trace_of (handle_event (Examples.usb false false)
                            (mkEvent KEYDOWN (Some K_r))
                            (Examples.playing_a false))) = 1%nat.
Proof.
  exact (proj1 (proj2 (reload_key_always_restarts
                         (Examples.usb false false)
                         (Examples.playing_a false)
                         (Examples.playing_a false)
                         (mkPlaylist [Examples.movie_a; Examples.movie_b])
                         eq_refl))).
Defined.

(** ** The volume of a restart *)

(** X6.  When the rebuilt Playlist differs, the restart plays with the
    software volume as the rebuild has just left it (the value read
    from the sidecars during this very rebuild), not with the volume
    the pass started with. *)
Theorem restart_plays_with_fresh_volume (w : World) (st st1 : VideoLooper)
        (new pl' : Playlist) (m : Movie) :
  _build_playlist w st = (Ok new, st1, []) ->
  differs new (_playlist st) = true ->
  next_movie (_is_random (config st)) (rnd w) new = (Some m, pl') ->
  check_changes w st
  = (Ok tt, with_playlist pl' st1,
     [play_next_called; playlist_next_movie (_is_random (config st));
      player_play (path m) (_sound_vol st1)]).
Proof.
  intros Hbuild Hdiff Hnext.
  destruct (build_playlist_outcome w st) as (r1 & st1' & Hb & Hvol).
  rewrite Hbuild in Hb. injection Hb as <- <-.
  destruct Hvol as (Hcfg & Hpl1 & _ & _).
  unfold check_changes, bind at 1. rewrite Hbuild.
  rewrite bind_get_run, Hpl1, Hdiff.
  assert (Hne : (Model.length new =? 0) = false).
  { unfold next_movie in Hnext. unfold Model.length.
    destruct (movies new); [discriminate | reflexivity]. }
  unfold _play_next. run_m. rewrite Hne. simpl.
  change (config (with_playlist new st1)) with (config st1).
  rewrite Hcfg, Hnext. reflexivity.
Qed.

Lemma restart_plays_with_fresh_volume_witness :
  check_changes (Examples.usb false false) Examples.playing_b_only
  = (Ok tt,
     with_playlist {| movies := [Examples.movie_a; Examples.movie_b];
                      cursor := 0; pending := None |}
                   Examples.playing_b_only,
     [play_next_called; playlist_next_movie false;
      player_play "/mnt/usb/a_repeat_3x.mp4" 0]).
Proof.
  exact (restart_plays_with_fresh_volume
           (Examples.usb false false) Examples.playing_b_only
           Examples.playing_b_only
           (mkPlaylist [Examples.movie_a; Examples.movie_b])
           {| movies := [Examples.movie_a; Examples.movie_b];
              cursor := 0; pending := None |}
           Examples.movie_a eq_refl eq_refl eq_refl).
Defined.

(** ** The stopped state *)

Lemma play_next_plays (w : World) (s : VideoLooper) (pl pl' : Playlist)
      (m : Movie) :
  _playlist s = Some pl ->
  next_movie (_is_random (config s)) (rnd w) pl = (Some m, pl') ->
  _play_next w s
  = (Ok tt, with_playlist pl' s,
     [play_next_called; playlist_next_movie (_is_random (config s));
      player_play (path m) (_sound_vol s)]).
Proof.
  intros Hpl Hnext.
  assert (Hne : (Model.length pl =? 0) = false).
  { unfold next_movie in Hnext. unfold Model.length.
    destruct (movies pl); [discriminate | reflexivity]. }
  unfold _play_next. run_m. rewrite Hpl. simpl. rewrite Hne. simpl.
  rewrite Hnext. reflexivity.
Qed.

Lemma main_loop_stopped_quiet (ticks : list Tick) :
  forall st,
    _running st = true ->
    _playbackStopped st = true ->
    quiet ticks ->
    main_loop ticks st
    = (Ok false, st, List.repeat (sleep 1) (List.length ticks)).
Proof.
  induction ticks as [| t rest IH]; intros st Hrun Hstop Hquiet; simpl.
  - rewrite bind_get_run, Hrun. reflexivity.
  - rewrite bind_get_run, Hrun.
    assert (Hbody : loop_body (world t) st = (Ok tt, st, [sleep 1])).
    { unfold loop_body. rewrite bind_get_run, Hstop. reflexivity. }
    unfold bind at 1. rewrite Hbody.
    rewrite (Hquiet t (or_introl eq_refl)). simpl deliver_all.
    unfold bind, ret.
    rewrite (IH st Hrun Hstop (fun t' H => Hquiet t' (or_intror H))).
    reflexivity.
Qed.

(** X7.  While playback is stopped and no handler runs, the main loop
    does nothing but sleep one second per pass: it never asks the
    Player whether the movie is finished, never rebuilds the playlist,
    and changes nothing of the state. *)
Theorem stopped_loop_only_sleeps (ticks : list Tick) (st : VideoLooper) :
  _running st = true ->
  _playbackStopped st = true ->
  quiet ticks ->
  main_loop ticks st
  = (Ok false, st, List.repeat (sleep 1) (List.length ticks)).
Proof. exact (main_loop_stopped_quiet ticks st). Qed.

Lemma stopped_loop_only_sleeps_witness :
  main_loop [Examples.tick true []; Examples.tick true []]
            (with_playbackStopped true (Examples.playing_a false))
  = (Ok false, with_playbackStopped true (Examples.playing_a false),
     [sleep 1; sleep 1]).
Proof.
  apply (stopped_loop_only_sleeps
           [Examples.tick true []; Examples.tick true []]
           (with_playbackStopped true (Examples.playing_a false))
           eq_refl eq_refl).
  intros t [<- | [<- | []]]; reflexivity.
Defined.

(** X8.  [run] starts playback whatever [_playbackStopped] says: with
    the looper stopped on startup (and no resume, no countdown) it
    still initialises the Player and plays the first movie it gets
    from the Playlist; after that the loop only sleeps, so nothing
    follows that movie until some handler intervenes. *)
Theorem run_plays_first_movie_when_stopped
        (w0 : World) (ticks : list Tick) (st st1 : VideoLooper)
        (pl pl' : Playlist) (m : Movie) :
  _running st = true ->
  _playbackStopped st = true ->
  _resume_playlist (config st) = false ->
  _countdown_time (config st) <= 0 ->
  _build_playlist w0 st = (Ok pl, st1, []) ->
  next_movie (_is_random (config st)) (rnd w0) pl = (Some m, pl') ->
  quiet ticks ->
  run w0 ticks st
  = (Ok false, with_playlist pl' st1,
     [player_initialize; play_next_called;
      playlist_next_movie (_is_random (config st));
      player_play (path m) (_sound_vol st1)]
     ++ List.repeat (sleep 1) (List.length ticks)).
Proof.
  intros Hrun Hstop Hresume Hcount Hbuild Hnext Hquiet.
  destruct (build_playlist_outcome w0 st) as (r1 & st1' & Hb & Hvol).
  rewrite Hbuild in Hb. injection Hb as <- <-.
  destruct Hvol as (Hcfg & _ & Hrun1 & Hstop1).
  assert (Hplay : _play_next w0 (with_playlist pl st1)
                  = (Ok tt, with_playlist pl' st1,
                     [play_next_called;
                      playlist_next_movie (_is_random (config st));
                      player_play (path m) (_sound_vol st1)])).
  { rewrite <- Hcfg in Hnext.
    rewrite (play_next_plays w0 (with_playlist pl st1) pl pl' m eq_refl Hnext).
    simpl. rewrite Hcfg. reflexivity. }
  assert (Hloop : loop_and_clean_up ticks (with_playlist pl' st1)
                  = (Ok false, with_playlist pl' st1,
                     List.repeat (sleep 1) (List.length ticks))).
  { unfold loop_and_clean_up, bind.
    rewrite (main_loop_stopped_quiet ticks (with_playlist pl' st1));
      [| simpl; congruence | simpl; congruence | exact Hquiet].
    simpl. rewrite app_nil_r. reflexivity. }
  unfold run. unfold bind at 1. rewrite Hbuild.
  unfold bind at 1, set_playlist, modify.
  unfold bind at 1, call.
  rewrite bind_get_run.
  assert (Hc' : config (with_playlist pl st1) = config st)
    by (simpl; exact Hcfg).
  apply Z.ltb_ge in Hcount.
  rewrite !Hc', Hresume, Hcount.
  unfold bind at 1. rewrite Hplay.
  unfold bind at 1, ret. rewrite Hloop. reflexivity.
Qed.

Lemma run_plays_first_movie_when_stopped_witness :
  run (Examples.usb false false)
      [Examples.tick true []; Examples.tick true []]
      (init (Examples.cfg false None) false)
  = (Ok false,
     with_playlist {| movies := [Examples.movie_a; Examples.movie_b];
                      cursor := 0; pending := None |}
                   (init (Examples.cfg false None) false),
     [player_initialize; play_next_called; playlist_next_movie false;
      player_play "/mnt/usb/a_repeat_3x.mp4" 0; sleep 1; sleep 1]).
Proof.
  assert (Hcount : 0 <= 0) by lia.
  apply (run_plays_first_movie_when_stopped
           (Examples.usb false false)
           [Examples.tick true []; Examples.tick true []]
           (init (Examples.cfg false None) false)
           (init (Examples.cfg false None) false)
           (mkPlaylist [Examples.movie_a; Examples.movie_b])
           {| movies := [Examples.movie_a; Examples.movie_b];
              cursor := 0; pending := None |}
           Examples.movie_a
           eq_refl eq_refl eq_refl Hcount eq_refl eq_refl).
  intros t [<- | [<- | []]]; reflexivity.
Defined.

Lemma stays_playing_refl st : stays_playing st st.
Proof. split; auto. Qed.

Lemma stays_playing_trans a b c :
  stays_playing a b -> stays_playing b c -> stays_playing a c.
Proof.
  unfold stays_playing. intros (?&?) (?&?). split; [congruence | auto].
Qed.

Lemma key_frame_stays_playing st st' :
  key_frame st st' -> stays_playing st st'.
Proof. intros (?&?&?). split; [assumption | congruence]. Qed.

Ltac stays_playing_steps leaf :=
  frame_with stays_playing stays_playing_refl stays_playing_trans
    ltac:(first
      [ apply stable_modify; intro; unfold stays_playing; simpl;
        repeat split; auto; fail
      | apply (stable_weaken keeps_flags stays_playing _
                 (fun a b H => key_frame_stays_playing a b
                                 (keeps_flags_key_frame a b H)));
        first [ apply play_next_keeps_flags
              | apply build_playlist_keeps_flags
              | apply the_playlist_keeps_flags ]
      | leaf ]).

Lemma gpio_stays_playing w pin :
  stable stays_playing (_handle_gpio_control w pin).
Proof.
  unfold _handle_gpio_control, set_playlist, set_playbackStopped.
  stays_playing_steps fail.
Qed.

Lemma loop_body_stays_playing w : stable stays_playing (loop_body w).
Proof.
  unfold loop_body, check_finished, check_changes, set_playlist.
  stays_playing_steps fail.
Qed.

Lemma deliver_stays_playing w i : stable stays_playing (deliver w i).
Proof.
  destruct i; unfold deliver.
  - stays_playing_steps fail.
  - stays_playing_steps ltac:(apply gpio_stays_playing).
  - stays_playing_steps fail.
Qed.

Lemma deliver_all_stays_playing w ins :
  stable stays_playing (deliver_all w ins).
Proof.
  induction ins as [| i rest IH]; simpl.
  - stays_playing_steps fail.
  - stays_playing_steps ltac:(first [ apply deliver_stays_playing
                                    | apply IH ]).
Qed.

Lemma main_loop_stays_playing ticks :
  stable stays_playing (main_loop ticks).
Proof.
  induction ticks as [| t rest IH]; simpl.
  - stays_playing_steps fail.
  - stays_playing_steps ltac:(first [ apply loop_body_stays_playing
                                    | apply deliver_all_stays_playing
                                    | apply IH ]).
Qed.

(** X9.  Playback can never be stopped while the looper runs: no pass
    of the main loop and no handler (keyboard, GPIO, signal) ever sets
    [_playbackStopped]; a looper that is not stopped stays so through
    any number of passes and any inputs.  The same holds of the key
    dispatch of the keyboard handler taken by itself, whatever events
    it is given. *)
Theorem playback_is_never_stopped (ticks : list Tick) (st : VideoLooper) :
  _playbackStopped st = false ->
  _playbackStopped (state_of (main_loop ticks st)) = false
  /\ (forall w events,
        _playbackStopped (state_of (handle_events w events st)) = false).
Proof.
  intro H. split; [exact (proj2 (main_loop_stays_playing ticks st) H) |].
  intros w events.
  rewrite (proj1 (proj2 (handle_events_frame w events st))). exact H.
Qed.

Lemma playback_is_never_stopped_witness :
  _playbackStopped
    (state_of (main_loop
                 [Examples.tick true [KeyboardPoll [Examples.s_key]];
                  Examples.tick true [GpioEdge 13]]
                 (Examples.playing_a false))) = false
  /\ _playbackStopped
       (state_of (handle_events (Examples.usb true false) [Examples.s_key]
                                (Examples.playing_a false))) = false.
Proof.
  destruct (playback_is_never_stopped
              [Examples.tick true [KeyboardPoll [Examples.s_key]];
               Examples.tick true [GpioEdge 13]]
              (Examples.playing_a false) eq_refl) as [H1 H2].
  split; [exact H1 | exact (H2 (Examples.usb true false) [Examples.s_key])].
Defined.

Lemma loop_body_key_frame w : stable key_frame (loop_body w).
Proof.
  unfold loop_body, check_finished, check_changes, set_playlist.
  key_frame_steps fail.
Qed.

Lemma deliver_all_key_frame w ins :
  (forall i, In i ins -> is_gpio_edge i = false) ->
  stable key_frame (deliver_all w ins).
Proof.
  induction ins as [| i rest IH]; intro Hno; simpl.
  - key_frame_steps fail.
  - apply (stable_bind key_frame key_frame_trans).
    + pose proof (Hno i (or_introl eq_refl)) as Hi.
      destruct i; [| discriminate |]; unfold deliver;
        key_frame_steps fail.
    + intros _. apply IH. intros j Hj. apply Hno. right. exact Hj.
Qed.

Lemma main_loop_key_frame ticks :
  no_gpio_edge ticks -> stable key_frame (main_loop ticks).
Proof.
  induction ticks as [| t rest IH]; intro Hno; simpl.
  - key_frame_steps fail.
  - key_frame_steps ltac:(first
      [ apply loop_body_key_frame
      | apply deliver_all_key_frame;
        intros i Hi; apply (Hno t i (or_introl eq_refl) Hi)
      | apply IH; intros t' i' Ht' Hi';
        apply (Hno t' i' (or_intror Ht') Hi') ]).
Qed.

(** X10.  Only a GPIO edge can change [_playbackStopped]: through any
    number of passes of the main loop in which the inputs are keyboard
    polls and signals, the flag is what it was at the start.  A looper
    stopped on startup is never resumed from the keyboard: the key
    dispatch of the keyboard handler, whatever events it is given,
    leaves the flag as it is. *)
Theorem only_gpio_changes_stopped (ticks : list Tick) (st : VideoLooper) :
  no_gpio_edge ticks ->
  _playbackStopped (state_of (main_loop ticks st)) = _playbackStopped st
  /\ (forall w events,
        _playbackStopped (state_of (handle_events w events st))
        = _playbackStopped st).
Proof.
  intro Hno.
  split; [exact (proj1 (proj2 (main_loop_key_frame ticks Hno st))) |].
  intros w events. exact (proj1 (proj2 (handle_events_frame w events st))).
Qed.

Lemma only_gpio_changes_stopped_witness :
  _playbackStopped
    (state_of (main_loop
                 [Examples.tick true
                    [KeyboardPoll [mkEvent KEYDOWN (Some K_RIGHT);
                                   mkEvent KEYDOWN (Some K_SPACE)]]]
                 (with_playbackStopped true (Examples.playing_a false))))
  = true
  /\ _playbackStopped
       (state_of (handle_events
                    (Examples.usb true false)
                    [mkEvent KEYDOWN (Some K_RIGHT);
                     mkEvent KEYDOWN (Some K_SPACE)]
                    (with_playbackStopped true (Examples.playing_a false))))
     = true.
Proof.
  assert (Hno : no_gpio_edge
                  [Examples.tick true
                     [KeyboardPoll [mkEvent KEYDOWN (Some K_RIGHT);
                                    mkEvent KEYDOWN (Some K_SPACE)]]]).
  { intros t i [<- | []] [<- | []]. reflexivity. }
  destruct (only_gpio_changes_stopped
              [Examples.tick true
                 [KeyboardPoll [mkEvent KEYDOWN (Some K_RIGHT);
                                mkEvent KEYDOWN (Some K_SPACE)]]]
              (with_playbackStopped true (Examples.playing_a false)) Hno)
    as [H1 H2].
  split; [exact H1 | exact (H2 (Examples.usb true false) _)].
Defined.

(** ** What the full scan collects *)












(** ** Sidecars that break the scan *)

Lemma read_alsa_hw_vol_ok w path st s1 t :
  read_alsa_hw_vol w path st = (Ok tt, s1, t) ->
  negb (String.eqb (_alsa_hw_vol_file (config st)) "")
  && path_exists w (in_dir path (_alsa_hw_vol_file (config st)))
  && match readline w (in_dir path (_alsa_hw_vol_file (config st))) with
     | None => true
     | Some _ => false
     end = false.
Proof.
  unfold read_alsa_hw_vol. rewrite bind_get_run. cbv zeta.
  destruct (negb (String.eqb (_alsa_hw_vol_file (config st)) ""));
    [| reflexivity].
  destruct (path_exists w (in_dir path (_alsa_hw_vol_file (config st))));
    [| reflexivity].
  destruct (readline w (in_dir path (_alsa_hw_vol_file (config st))));
    [reflexivity | discriminate].
Qed.

Lemma read_sound_vol_ok w path st s1 t :
  read_sound_vol w path st = (Ok tt, s1, t) ->
  negb (String.eqb (_sound_vol_file (config st)) "")
  && path_exists w (in_dir path (_sound_vol_file (config st)))
  && match readline w (in_dir path (_sound_vol_file (config st))) with
     | None => true
     | Some s =>
         match float w s with
         | FloatInf | FloatNan => true
         | _ => false
         end
     end = false.
Proof.
  unfold read_sound_vol. rewrite bind_get_run. cbv zeta.
  destruct (negb (String.eqb (_sound_vol_file (config st)) ""));
    [| reflexivity].
  destruct (path_exists w (in_dir path (_sound_vol_file (config st))));
    [| reflexivity].
  destruct (readline w (in_dir path (_sound_vol_file (config st))))
    as [s |]; [| discriminate].
  unfold _is_number, bind, lift, int_of_float.
  destruct (float w s); simpl; first [reflexivity | discriminate].
Qed.

Lemma scan_paths_ok_sidecars w paths :
  forall movies st ms st' tr path,
    scan_paths w movies paths st = (Ok ms, st', tr) ->
    In path paths ->
    breaks_scan w (config st) path = false.
Proof.
  induction paths as [| p rest IH];
    intros movies st ms st' tr path Hscan Hin; [contradiction |].
  simpl in Hscan.
  destruct (negb (path_exists w p) || negb (isdir w p)) eqn:Hskip.
  - destruct Hin as [<- | Hin]; [| exact (IH _ _ _ _ _ _ Hscan Hin)].
    unfold breaks_scan, scanned.
    destruct (path_exists w p), (isdir w p); try discriminate; reflexivity.
  - rewrite bind_get_run in Hscan. unfold bind at 1, lift in Hscan.
    destruct (collect_movies (supported_extensions (config st)) p
                             (listdir w p)) as [found | e];
      [| discriminate].
    unfold bind at 1 in Hscan.
    destruct (read_alsa_hw_vol w p st) as [[[[] | e] s1] t1] eqn:Halsa;
      [| discriminate].
    unfold bind at 1 in Hscan.
    destruct (read_sound_vol w p s1) as [[[[] | e] s2] t2] eqn:Hsound;
      [| discriminate].
    destruct (scan_paths w (movies ++ found) rest s2)
      as [[[ms' | e] s3] t3] eqn:Hrest; [| discriminate].
    destruct (read_alsa_hw_vol_step _ _ _ _ _ Halsa) as (Hc1 & _).
    destruct (read_sound_vol_step _ _ _ _ _ Hsound) as (Hc2 & _).
    destruct Hin as [<- | Hin].
    + unfold breaks_scan.
      rewrite (read_alsa_hw_vol_ok _ _ _ _ _ Halsa).
      pose proof (read_sound_vol_ok _ _ _ _ _ Hsound) as Hs.
      rewrite Hc1 in Hs. rewrite Hs. apply andb_false_r.
    + pose proof (IH _ _ _ _ _ _ Hrest Hin) as H.
      rewrite Hc2, Hc1 in H. exact H.
Qed.

(** X12.  A sidecar can make the whole scan raise instead of being
    ignored: when a search path that is scanned holds a volume sidecar
    that cannot be read, or a software-volume sidecar whose first line
    [float] takes for an infinity or a NaN (which passes [_is_number]
    and then fails in [int]), the full scan ends in an exception. *)
Theorem broken_sidecar_raises (w : World) (st : VideoLooper) (path : string) :
  In path (search_paths w) ->
  breaks_scan w (config st) path = true ->
  raises (_build_playlist_from_all_files w st).
Proof.
  intros Hin Hbreak. unfold raises, _build_playlist_from_all_files, bind, ret.
  destruct (scan_paths w [] (search_paths w) st) as [[[ms | e] s1] t1] eqn:Hs.
  - rewrite (scan_paths_ok_sidecars _ _ _ _ _ _ _ _ Hs Hin) in Hbreak.
    discriminate.
  - exists e. reflexivity.
Qed.

Lemma broken_sidecar_raises_witness :
  raises (_build_playlist_from_all_files
            MoreExamples.inf_stick (init Examples.cfg_volumes true)).
Proof.
  exact (broken_sidecar_raises
           MoreExamples.inf_stick (init Examples.cfg_volumes true)
           "/mnt/usb" (or_introl eq_refl) eq_refl).
Defined.

(** ** Rebuilding in an unchanged world *)

Lemma same_result_bind {A B} (ma mb : M A) (fa fb : A -> M B)
      (sa sb : VideoLooper) :
  same_result (ma sa) (mb sb) ->
  (forall x s s', config s = config s' -> same_result (fa x s) (fb x s')) ->
  same_result (bind ma fa sa) (bind mb fb sb).
Proof.
  unfold same_result, state_of, bind. intros [Hr Hc] Hf.
  destruct (ma sa) as [[[a | e] s1] t1], (mb sb) as [[[b | e'] s2] t2];
    simpl in *; try discriminate.
  - injection Hr as <-. specialize (Hf a s1 s2 Hc).
    destruct (fa a s1) as [[r1 s1'] t1'], (fb a s2) as [[r2 s2'] t2'].
    exact Hf.
  - injection Hr as ->. split; [reflexivity | exact Hc].
Qed.

Lemma same_result_here {A} (r : Res A) (sa sb : VideoLooper)
      (ta tb : list Call) :
  config sa = config sb -> same_result (r, sa, ta) (r, sb, tb).
Proof. intro H. split; [reflexivity | exact H]. Qed.

Section UnchangedFiles.

Variable w : World.
Variables fin playing : bool.
Variable r : nat.

Let w' := with_answers fin playing r w.

Lemma read_alsa_hw_vol_same path sa sb :
  config sa = config sb ->
  same_result (read_alsa_hw_vol w' path sa) (read_alsa_hw_vol w path sb).
Proof.
  intro H. unfold read_alsa_hw_vol. rewrite !bind_get_run. cbv zeta.
  rewrite H. simpl.
  destruct (negb (String.eqb (_alsa_hw_vol_file (config sb)) ""));
    [| apply same_result_here; exact H].
  destruct (path_exists w (in_dir path (_alsa_hw_vol_file (config sb))));
    [| apply same_result_here; exact H].
  destruct (readline w (in_dir path (_alsa_hw_vol_file (config sb))));
    apply same_result_here; exact H.
Qed.

Lemma read_sound_vol_same path sa sb :
  config sa = config sb ->
  same_result (read_sound_vol w' path sa) (read_sound_vol w path sb).
Proof.
  intro H. unfold read_sound_vol. rewrite !bind_get_run. cbv zeta.
  rewrite H. simpl.
  destruct (negb (String.eqb (_sound_vol_file (config sb)) ""));
    [| apply same_result_here; exact H].
  destruct (path_exists w (in_dir path (_sound_vol_file (config sb))));
    [| apply same_result_here; exact H].
  destruct (readline w (in_dir path (_sound_vol_file (config sb))))
    as [s |]; [| apply same_result_here; exact H].
  unfold _is_number, int_of_float, bind, lift, set_sound_vol, modify. simpl.
  destruct (float w s); apply same_result_here; exact H.
Qed.

Lemma scan_paths_same paths :
  forall movies sa sb,
    config sa = config sb ->
    same_result (scan_paths w' movies paths sa) (scan_paths w movies paths sb).
Proof.
  induction paths as [| path rest IH]; intros movies sa sb H; simpl.
  - apply same_result_here. exact H.
  - destruct (negb (path_exists w path) || negb (isdir w path));
      [apply IH; exact H |].
    rewrite !bind_get_run, H.
    apply same_result_bind; [apply same_result_here; exact H |].
    intros found s1 s1' H1.
    apply same_result_bind; [apply read_alsa_hw_vol_same; exact H1 |].
    intros [] s2 s2' H2.
    apply same_result_bind; [apply read_sound_vol_same; exact H2 |].
    intros [] s3 s3' H3. apply IH. exact H3.
Qed.

Lemma build_from_all_files_same sa sb :
  config sa = config sb ->
  same_result (_build_playlist_from_all_files w' sa)
              (_build_playlist_from_all_files w sb).
Proof.
  intro H. unfold _build_playlist_from_all_files.
  apply same_result_bind; [apply scan_paths_same; exact H |].
  intros ms s s' Hs. apply same_result_here. exact Hs.
Qed.

Lemma first_resolving_same p paths :
  first_resolving w' p paths = first_resolving w p paths.
Proof.
  induction paths as [| d rest IH]; simpl; [reflexivity |].
  rewrite IH. reflexivity.
Qed.

Lemma build_from_playlist_file_same p sa sb :
  config sa = config sb ->
  same_result (build_from_playlist_file w' p sa)
              (build_from_playlist_file w p sb).
Proof.
  intro H. unfold build_from_playlist_file.
  destruct (_ || _).
  - apply same_result_here. exact H.
  - apply build_from_all_files_same. exact H.
Qed.

Lemma build_playlist_same sa sb :
  config sa = config sb ->
  same_result (_build_playlist w' sa) (_build_playlist w sb).
Proof.
  intro H. unfold _build_playlist. rewrite !bind_get_run, H.
  destruct (playlist_path_option (config sb)) as [p |];
    [| apply build_from_all_files_same; exact H].
  destruct (negb (String.eqb p ""));
    [| apply build_from_all_files_same; exact H].
  assert (Hi : isfile w' p = isfile w p) by reflexivity.
  assert (Hsp : search_paths w' = search_paths w) by reflexivity.
  rewrite Hi, Hsp.
  destruct (PosixPath.isabs p).
  - destruct (negb (isfile w p)).
    + apply build_from_all_files_same. exact H.
    + apply build_from_playlist_file_same. exact H.
  - destruct (search_paths w) as [| d rest].
    + apply same_result_here. exact H.
    + rewrite first_resolving_same.
      destruct (first_resolving w p (d :: rest)).
      * apply build_from_playlist_file_same. exact H.
      * apply build_from_all_files_same. exact H.
Qed.

End UnchangedFiles.

Lemma playlist_eqb_movies p q q' :
  movies q = movies q' -> playlist_eqb p q = playlist_eqb p q'.
Proof. intro H. unfold playlist_eqb. rewrite H. reflexivity. Qed.

Lemma check_finished_ok w st st2 tr :
  check_finished w st = (Ok tt, st2, tr) ->
  config st2 = config st
  /\ forall pl, _playlist st = Some pl ->
       exists pl2, _playlist st2 = Some pl2 /\ movies pl2 = movies pl.
Proof.
  unfold check_finished, bind, call, ret.
  destruct (finished w).
  - destruct (play_next_outcome w st) as (r & s' & t & Hpn & _ & _ & Hmov).
    pose proof (play_next_keeps_flags w st) as Hf.
    rewrite Hpn in *. unfold state_of in Hf. simpl in Hf.
    intro H. injection H as _ <- _.
    split; [exact (proj1 Hf) | exact Hmov].
  - intro H. injection H as <- _. split; [reflexivity |]. eauto.
Qed.

Lemma check_changes_ok w st st1 tr1 :
  check_changes w st = (Ok tt, st1, tr1) ->
  exists new sb,
    _build_playlist w st = (Ok new, sb, [])
    /\ config st1 = config st
    /\ exists pl1, _playlist st1 = Some pl1 /\ playlist_eqb new pl1 = true.
Proof.
  destruct (build_playlist_outcome w st) as (r1 & sb & Hb & Hvol).
  destruct Hvol as (Hcfg & Hpl & _ & _).
  unfold check_changes. unfold bind at 1. rewrite Hb.
  destruct r1 as [new | e]; [| discriminate].
  rewrite bind_get_run. unfold differs. rewrite Hpl.
  intro H. exists new, sb. split; [reflexivity |].
  destruct (_playlist st) as [cur |] eqn:Hcur.
  - destruct (playlist_eqb new cur) eqn:Heq; simpl in H.
    + injection H as <- _. split; [exact Hcfg |].
      exists cur. split; [congruence | exact Heq].
    + unfold bind, set_playlist, modify in H.
      destruct (play_next_outcome w (with_playlist new sb))
        as (r & s' & t & Hpn & _ & _ & Hmov).
      pose proof (play_next_keeps_flags w (with_playlist new sb)) as Hf.
      rewrite Hpn in *. unfold state_of in Hf. simpl in Hf, H.
      injection H as -> <- _.
      split; [destruct Hf as (Hc & _); simpl in Hc; congruence |].
      destruct (Hmov new eq_refl) as (pl' & Hpl' & Hm).
      exists pl'. split; [exact Hpl' |].
      apply playlist_eqb_same_movies. congruence.
  - unfold bind, set_playlist, modify in H.
    destruct (play_next_outcome w (with_playlist new sb))
      as (r & s' & t & Hpn & _ & _ & Hmov).
    pose proof (play_next_keeps_flags w (with_playlist new sb)) as Hf.
    rewrite Hpn in *. unfold state_of in Hf. simpl in Hf, H.
    injection H as -> <- _.
    split; [destruct Hf as (Hc & _); simpl in Hc; congruence |].
    destruct (Hmov new eq_refl) as (pl' & Hpl' & Hm).
    exists pl'. split; [exact Hpl' |].
    apply playlist_eqb_same_movies. congruence.
Qed.

(** X13.  Nothing changes on disk, nothing restarts: after a pass of
    the main loop whose rebuild went through, the next pass over the
    same files (whatever the Player answers and whether the movie has
    finished in between) rebuilds a Playlist that compares equal to
    the current one; it keeps the current Playlist and does not enter
    [_play_next]. *)
Theorem no_restart_in_unchanged_world
        (w : World) (fin playing : bool) (r : nat)
        (st st1 st2 : VideoLooper) (tr1 tr2 : list Call) :
  check_changes w st = (Ok tt, st1, tr1) ->
  check_finished (with_answers fin playing r w) st1 = (Ok tt, st2, tr2) ->
  exists st3,
    check_changes (with_answers fin playing r w) st2 = (Ok tt, st3, [])
    /\ _playlist st3 = _playlist st2.
Proof.
  intros Hfirst Hfin.
  destruct (check_changes_ok _ _ _ _ Hfirst)
    as (new & sb & Hbuild & Hc1 & pl1 & Hpl1 & Heq1).
  destruct (check_finished_ok _ _ _ _ Hfin) as (Hc2 & Hmov).
  destruct (Hmov pl1 Hpl1) as (pl2 & Hpl2 & Hm2).
  assert (Hcfg : config st2 = config st) by congruence.
  pose proof (build_playlist_same w fin playing r st2 st Hcfg) as [Hres _].
  rewrite Hbuild in Hres. simpl in Hres.
  destruct (build_playlist_outcome (with_answers fin playing r w) st2)
    as (r2 & sc & Hb2 & Hvol).
  rewrite Hb2 in Hres. simpl in Hres. subst r2.
  destruct Hvol as (_ & Hplc & _ & _).
  exists sc. split; [| exact Hplc].
  unfold check_changes. unfold bind at 1. rewrite Hb2.
  rewrite bind_get_run. unfold differs. rewrite Hplc, Hpl2.
  rewrite (playlist_eqb_movies new pl2 pl1 Hm2), Heq1. reflexivity.
Qed.

Lemma no_restart_in_unchanged_world_witness :
  exists st3,
    check_changes (with_answers true false 0 (Examples.usb false false))
      (with_playlist {| movies := [Examples.movie_a; Examples.movie_b];
                        cursor := 1; pending := None |}
                     Examples.playing_b_only)
    = (Ok tt, st3, [])
    /\ _playlist st3
       = Some {| movies := [Examples.movie_a; Examples.movie_b];
                 cursor := 1; pending := None |}.
Proof.
  exact (no_restart_in_unchanged_world
           (Examples.usb false false) true false 0
           Examples.playing_b_only _ _ _ _ eq_refl eq_refl).
Defined.

(** ** An exception in the main loop *)

Lemma forallb_playback_app a b :
  forallb is_playback_call (a ++ b)
  = forallb is_playback_call a && forallb is_playback_call b.
Proof. apply forallb_app. Qed.

Lemma play_next_calls_playback w s :
  forallb is_playback_call (trace_of (_play_next w s)) = true.
Proof.
  unfold _play_next. run_m.
  destruct (_playlist s) as [pl |]; simpl; [| reflexivity].
  destruct (Model.length pl =? 0); simpl; [reflexivity |].
  destruct (next_movie (_is_random (config s)) (rnd w) pl) as [[m |] pl'];
    reflexivity.
Qed.

Lemma loop_body_calls_playback w st :
  forallb is_playback_call (trace_of (loop_body w st)) = true.
Proof.
  unfold loop_body. rewrite bind_get_run.
  destruct (_playbackStopped st); simpl; [reflexivity |].
  assert (H1 : forall s,
            forallb is_playback_call (trace_of (check_finished w s)) = true).
  { intro s. unfold check_finished, bind, call, ret.
    destruct (finished w); [| reflexivity].
    pose proof (play_next_calls_playback w s) as H.
    destruct (_play_next w s) as [[r0 s'] t]. exact H. }
  assert (H2 : forall s,
            forallb is_playback_call (trace_of (check_changes w s)) = true).
  { intro s. unfold check_changes.
    destruct (build_playlist_outcome w s) as (r1 & sb & Hb & _).
    unfold bind at 1. rewrite Hb.
    destruct r1 as [new | e]; [| reflexivity].
    rewrite bind_get_run.
    destruct (differs new (_playlist sb)); [| reflexivity].
    unfold bind, set_playlist, modify.
    pose proof (play_next_calls_playback w (with_playlist new sb)) as H.
    destruct (_play_next w (with_playlist new sb)) as [[r0 s'] t]. exact H. }
  unfold bind, call. specialize (H1 st).
  destruct (check_finished w st) as [[[[] | e] s1] t1]; [| exact H1].
  specialize (H2 s1).
  destruct (check_changes w s1) as [[[[] | e] s2] t2]; unfold trace_of in *;
    simpl in *; rewrite forallb_playback_app, H1.
  - rewrite forallb_playback_app, H2. reflexivity.
  - exact H2.
Qed.

(** X14.  An exception that escapes a pass of the main loop (from the
    rebuild, for one) ends [run] at once and without the exit path:
    the Player is not stopped, the GPIO resources are not released and
    pygame is not quit; up to the exception only playback calls and
    sleeps were made. *)
Theorem exception_in_loop_skips_exit_path
        (st st' : VideoLooper) (t : Tick) (rest : list Tick)
        (e : PyExc) (tr : list Call) :
  _running st = true ->
  loop_body (world t) st = (Raise e, st', tr) ->
  loop_and_clean_up (t :: rest) st = (Raise e, st', tr)
  /\ forallb is_playback_call tr = true
  /\ ~ In (player_stop None) tr
  /\ ~ In gpio_cleanup tr
  /\ ~ In pygame_quit tr.
Proof.
  intros Hrun Hbody.
  pose proof (loop_body_calls_playback (world t) st) as Hcalls.
  rewrite Hbody in Hcalls. unfold trace_of in Hcalls. simpl in Hcalls.
  split.
  - unfold loop_and_clean_up. simpl main_loop.
    unfold bind at 1. rewrite bind_get_run, Hrun.
    unfold bind at 1. rewrite Hbody. reflexivity.
  - split; [exact Hcalls |].
    rewrite forallb_forall in Hcalls.
    repeat split; intro Hin; apply Hcalls in Hin; discriminate.
Qed.

Lemma exception_in_loop_skips_exit_path_witness :
  loop_and_clean_up [MoreExamples.inf_tick; MoreExamples.inf_tick]
                    MoreExamples.idle_with_volumes
  = (Raise OverflowError, MoreExamples.idle_with_volumes, [player_finished]).
Proof.
  exact (proj1 (exception_in_loop_skips_exit_path
                  MoreExamples.idle_with_volumes
                  MoreExamples.idle_with_volumes
                  MoreExamples.inf_tick [MoreExamples.inf_tick]
                  OverflowError [player_finished] eq_refl eq_refl)).
Defined.

(** ** Search paths with a trailing slash *)

Lemma string_app_nil_r (s : string) : (s ++ "")%string = s.
Proof. induction s as [| c s IH]; simpl; [| rewrite IH]; reflexivity. Qed.

Lemma string_app_assoc (a b c : string) :
  ((a ++ b) ++ c)%string = (a ++ b ++ c)%string.
Proof. induction a as [| x a IH]; simpl; [| rewrite IH]; reflexivity. Qed.

Lemma rev_string_app (a b : string) :
  PyStr.rev_string (a ++ b)
  = (PyStr.rev_string b ++ PyStr.rev_string a)%string.
Proof.
  induction a as [| x a IH]; simpl.
  - rewrite string_app_nil_r. reflexivity.
  - rewrite IH, string_app_assoc. reflexivity.
Qed.

Lemma rev_string_slashes n : PyStr.rev_string (slashes n) = slashes n.
Proof.
  induction n as [| k IH]; simpl; [reflexivity |].
  rewrite IH. clear IH.
  induction k as [| j IH]; simpl; [reflexivity |]. rewrite IH. reflexivity.
Qed.

Lemma lstrip_slashes n s :
  PyStr.lstrip_slash (slashes n ++ s) = PyStr.lstrip_slash s.
Proof. induction n as [| k IH]; simpl; [reflexivity | exact IH]. Qed.

(** X15.  Trailing slashes of a search path do not show in the movie
    paths: a search path written with any number of slashes at its end
    gives the same path, title and repeat argument for a file as the
    search path without them. *)
Theorem trailing_slashes_do_not_matter (path x : string) (n : nat) :
  in_dir (path ++ slashes n) x = in_dir path x
  /\ movie_of_name (path ++ slashes n) x = movie_of_name path x.
Proof.
  assert (H : in_dir (path ++ slashes n) x = in_dir path x).
  { unfold in_dir, PyStr.rstrip_slash.
    rewrite rev_string_app, rev_string_slashes, lstrip_slashes.
    reflexivity. }
  split; [exact H |]. unfold movie_of_name. rewrite H. reflexivity.
Qed.

(** ** Setting up the GPIO pins *)

Lemma setup_pins_all b pins :
  forall channels,
    map (accepts b) pins = map Some channels ->
    setup_pins b pins = (true, registrations channels).
Proof.
  induction pins as [| pin rest IH]; intros channels H;
    destruct channels as [| ch chs]; try discriminate; [reflexivity |].
  simpl in H. injection H as Hpin Hrest. simpl.
  unfold accepts in Hpin.
  destruct (int_of_key b pin) as [c |]; [| discriminate].
  destruct (setup_ok b c); [| discriminate].
  destruct (add_event_detect_ok b c); [| discriminate].
  simpl in Hpin. injection Hpin as ->.
  rewrite (IH chs Hrest). reflexivity.
Qed.

Lemma setup_pins_true b pins :
  forall calls,
    setup_pins b pins = (true, calls) ->
    exists channels,
      map (accepts b) pins = map Some channels
      /\ calls = registrations channels.
Proof.
  induction pins as [| pin rest IH]; intros calls H; simpl in H.
  - injection H as <-. exists []. split; reflexivity.
  - destruct (int_of_key b pin) as [c |] eqn:Hint; [| discriminate].
    destruct (setup_ok b c) eqn:Hs; [| discriminate].
    destruct (add_event_detect_ok b c) eqn:Hd; [| discriminate].
    destruct (setup_pins b rest) as [ok calls'].
    injection H as -> <-.
    destruct (IH calls' eq_refl) as (chs & Hm & ->).
    exists (c :: chs). split.
    + simpl. unfold accepts at 1. rewrite Hint, Hs, Hd, Hm. reflexivity.
    + reflexivity.
Qed.

Lemma setup_pins_stops b pre :
  forall channels k post,
    map (accepts b) pre = map Some channels ->
    accepts b k = None ->
    setup_pins b (pre ++ k :: post)
    = (false, registrations channels ++ half_done b k).
Proof.
  induction pre as [| pin rest IH]; intros channels k post Hpre Hk;
    destruct channels as [| ch chs]; try discriminate.
  - simpl. unfold accepts in Hk. unfold half_done.
    destruct (int_of_key b k) as [c |]; [| reflexivity].
    destruct (setup_ok b c); [| reflexivity].
    destruct (add_event_detect_ok b c); [discriminate | reflexivity].
  - simpl in Hpre. injection Hpre as Hpin Hrest. simpl.
    unfold accepts in Hpin.
    destruct (int_of_key b pin) as [c |]; [| discriminate].
    destruct (setup_ok b c); [| discriminate].
    destruct (add_event_detect_ok b c); [| discriminate].
    simpl in Hpin. injection Hpin as ->.
    rewrite (IH chs k post Hrest Hk). reflexivity.
Qed.

(** X16.  The pin map survives [__init__] only if the whole set-up
    went through: when [self._pinMap] ends up set, the setting was not
    empty, it is what [json.loads] made of the setting in braces, and
    every key of it was registered, in order and once each: the board
    numbering is chosen, then each pin is made an input with pull-up
    and gets the handler on its falling edge with a bounce time of
    200 ms. *)
Theorem pin_map_kept_means_all_registered
        (b : Board) (setting : string)
        (pm : list (string * PyVal)) (calls : list GpioCall) :
  init_pinMap b setting = (Some pm, calls) ->
  setting <> ""%string
  /\ json_loads b ("{" ++ setting ++ "}")%string = Some pm
  /\ exists channels,
       map (accepts b) (map fst pm) = map Some channels
       /\ calls = gpio_setmode_board :: registrations channels.
Proof.
  unfold init_pinMap. intro H.
  destruct (String.eqb setting "") eqn:He; [discriminate |].
  apply String.eqb_neq in He. split; [exact He |].
  destruct (json_loads b ("{" ++ setting ++ "}")%string) as [pm' |];
    [| discriminate].
  simpl in H. destruct (setmode_ok b); [| discriminate].
  destruct (setup_pins b (map fst pm')) as [[] calls'] eqn:Hs;
    [| discriminate].
  injection H as -> <-. split; [reflexivity |].
  destruct (setup_pins_true _ _ _ Hs) as (chs & Hm & ->).
  exists chs. split; [exact Hm | reflexivity].
Qed.

Lemma pin_map_kept_means_all_registered_witness :
  MoreExamples.two_buttons <> ""%string
  /\ json_loads MoreExamples.board ("{" ++ MoreExamples.two_buttons ++ "}")
     = Some [("11"%string, PyInt 1); ("13"%string, PyStr "K_s")]
  /\ exists channels,
       map (accepts MoreExamples.board) ["11"; "13"]%string
       = map Some channels
       /\ [gpio_setmode_board; gpio_setup_input_pull_up 11;
           gpio_add_event_detect_falling 11 200;
           gpio_setup_input_pull_up 13;
           gpio_add_event_detect_falling 13 200]
          = gpio_setmode_board :: registrations channels.
Proof.
  exact (pin_map_kept_means_all_registered
           MoreExamples.board MoreExamples.two_buttons
           [("11"%string, PyInt 1); ("13"%string, PyStr "K_s")]
           _ eq_refl).
Defined.

(** X17.  A set-up that fails half-way is not undone.  When a key of
    the pin map cannot be registered ([int] or a GPIO call raises),
    [self._pinMap] becomes [None], but the pins before that key stay
    registered with their handler.  From then on the handler ignores
    every trigger, and the exit path of [run] does not release the
    GPIO resources. *)
Theorem failed_gpio_setup_is_not_undone
        (b : Board) (setting : string) (pm : list (string * PyVal))
        (pre post : list string) (k : string) (channels : list Z)
        (w : World) (pin : Z) (st : VideoLooper) :
  setting <> ""%string ->
  json_loads b ("{" ++ setting ++ "}")%string = Some pm ->
  setmode_ok b = true ->
  map fst pm = pre ++ k :: post ->
  map (accepts b) pre = map Some channels ->
  accepts b k = None ->
  _pinMap (config st) = fst (init_pinMap b setting) ->
  init_pinMap b setting
  = (None, gpio_setmode_board :: registrations channels ++ half_done b k)
  /\ _handle_gpio_control w pin st = (Ok tt, st, [])
  /\ exit_trace (config st) = [player_stop None; pygame_quit].
Proof.
  intros Hne Hloads Hmode Hkeys Hpre Hk Hcfg.
  assert (Hinit : init_pinMap b setting
                  = (None, gpio_setmode_board
                           :: registrations channels ++ half_done b k)).
  { unfold init_pinMap. apply String.eqb_neq in Hne.
    rewrite Hne, Hloads. simpl. rewrite Hmode, Hkeys.
    rewrite (setup_pins_stops b pre channels k post Hpre Hk). reflexivity. }
  rewrite Hinit in Hcfg. simpl in Hcfg.
  split; [exact Hinit |]. split.
  - unfold _handle_gpio_control. rewrite bind_get_run, Hcfg. reflexivity.
  - unfold exit_trace, pinMap_configured. rewrite Hcfg. reflexivity.
Qed.

Lemma failed_gpio_setup_is_not_undone_witness :
  init_pinMap MoreExamples.board MoreExamples.bad_key_between
  = (None, [gpio_setmode_board; gpio_setup_input_pull_up 11;
            gpio_add_event_detect_falling 11 200])
  /\ _handle_gpio_control (Examples.usb false false) 11
                          (init Examples.cfg_volumes true)
     = (Ok tt, init Examples.cfg_volumes true, [])
  /\ exit_trace Examples.cfg_volumes = [player_stop None; pygame_quit].
Proof.
  assert (Hne : MoreExamples.bad_key_between <> ""%string) by discriminate.
  exact (failed_gpio_setup_is_not_undone
           MoreExamples.board MoreExamples.bad_key_between
           [("11"%string, PyInt 1); ("x"%string, PyInt 2);
            ("13"%string, PyStr "K_s")]
           ["11"%string] ["13"%string] "x" [11]
           (Examples.usb false false) 11 (init Examples.cfg_volumes true)
           Hne eq_refl eq_refl eq_refl eq_refl eq_refl eq_refl).
Defined.

(** ** The running flag while [run] loops *)

Lemma keeps_running_refl st : keeps_running st st.
Proof. split; reflexivity. Qed.

Lemma keeps_running_trans a b c :
  keeps_running a b -> keeps_running b c -> keeps_running a c.
Proof. intros (?&?) (?&?). split; congruence. Qed.

Lemma keeps_flags_keeps_running st st' :
  keeps_flags st st' -> keeps_running st st'.
Proof. intros (?&?&?). split; assumption. Qed.

Ltac keeps_running_steps leaf :=
  frame_with keeps_running keeps_running_refl keeps_running_trans
    ltac:(first
      [ apply stable_modify; intro; unfold keeps_running; simpl;
        repeat split; auto; fail
      | apply (stable_weaken keeps_flags keeps_running _
                 keeps_flags_keeps_running);
        first [ apply play_next_keeps_flags
              | apply build_playlist_keeps_flags
              | apply the_playlist_keeps_flags ]
      | leaf ]).

Lemma gpio_keeps_running w pin :
  stable keeps_running (_handle_gpio_control w pin).
Proof.
  unfold _handle_gpio_control, set_playlist, set_playbackStopped.
  keeps_running_steps fail.
Qed.

Lemma loop_body_keeps_running w : stable keeps_running (loop_body w).
Proof.
  unfold loop_body, check_finished, check_changes, set_playlist.
  keeps_running_steps fail.
Qed.

Lemma deliver_all_keeps_running w ins :
  stable keeps_running (deliver_all w ins).
Proof.
  induction ins as [| i rest IH]; simpl.
  - keeps_running_steps fail.
  - apply (stable_bind keeps_running keeps_running_trans).
    + destruct i; unfold deliver;
        keeps_running_steps ltac:(apply gpio_keeps_running).
    + intros _. exact IH.
Qed.

Lemma main_loop_goes_on ticks :
  forall st,
    _running st = true ->
    _running (state_of (main_loop ticks st)) = true
    /\ fst (fst (main_loop ticks st)) <> Ok true.
Proof.
  induction ticks as [| t rest IH]; intros st Hrun; simpl main_loop;
    rewrite bind_get_run, Hrun.
  - split; [exact Hrun | discriminate].
  - pose proof (loop_body_keeps_running (world t) st) as (_ & H1).
    unfold bind, state_of in *.
    destruct (loop_body (world t) st) as [[[[] | e] s1] t1]; simpl in H1;
      [| split; [simpl; congruence | discriminate]].
    pose proof (deliver_all_keeps_running (world t) (inputs t) s1) as (_ & H2).
    unfold state_of in H2.
    destruct (deliver_all (world t) (inputs t) s1) as [[[[] | e] s2] t2];
      simpl in H2; [| split; [simpl; congruence | discriminate]].
    assert (Hrun2 : _running s2 = true) by congruence.
    destruct (IH s2 Hrun2) as [Hs Hr].
    destruct (main_loop rest s2) as [[r3 s3] t3]. simpl in *.
    split; [exact Hs |].
    destruct r3 as [b | e]; [| discriminate].
    intro Heq. apply Hr. exact Heq.
Qed.

(** X18.  The running flag is never cleared while [run] loops.  The
    keyboard thread handles no event: its target first registers the
    handler of the control-c signal, which Python refuses outside the
    main thread, so the call raises [ValueError] and the thread ends
    before its loop, whatever events wait in the queue (the Escape key
    among them); nothing of the Controller's state changes and nobody
    is called.  No handler for the signal is set either.  So from a
    running looper, whatever passes and inputs come, the flag stays
    set and the main loop is never left through its test: [run] goes
    on, or ends in an exception, and never takes its exit path. *)
Theorem running_flag_is_never_cleared
        (w : World) (events : list Event) (ticks : list Tick)
        (st : VideoLooper) :
  _running st = true ->
  _handle_keyboard_shortcuts w events st = (Raise ValueError, st, [])
  /\ keyboard_thread w events st = (Ok tt, st, [])
  /\ _running (state_of (main_loop ticks st)) = true
  /\ fst (fst (main_loop ticks st)) <> Ok true
  /\ fst (fst (loop_and_clean_up ticks st)) <> Ok true.
Proof.
  intro Hrun.
  split; [reflexivity |].
  split.
  { unfold keyboard_thread. rewrite bind_get_run.
    destruct (_keyboard_control (config st)); reflexivity. }
  destruct (main_loop_goes_on ticks st Hrun) as [Hs Hr].
  split; [exact Hs |]. split; [exact Hr |].
  unfold loop_and_clean_up, bind.
  destruct (main_loop ticks st) as [[[[|] | e] s1] t1]; simpl in *;
    [exfalso; apply Hr; reflexivity | discriminate | discriminate].
Qed.

Lemma running_flag_is_never_cleared_witness :
  _handle_keyboard_shortcuts
    (Examples.usb false false) [mkEvent KEYDOWN (Some K_ESCAPE)]
    (Examples.playing_a false)
  = (Raise ValueError, Examples.playing_a false, [])
  /\ keyboard_thread
       (Examples.usb false false) [mkEvent KEYDOWN (Some K_ESCAPE)]
       (Examples.playing_a false)
     = (Ok tt, Examples.playing_a false, [])
  /\ _running
       (state_of
          (main_loop
             [Examples.tick false
                [KeyboardPoll [mkEvent KEYDOWN (Some K_ESCAPE)]];
              Examples.tick false [ExitSignal]]
             (Examples.playing_a false))) = true
  /\ fst (fst (main_loop
                 [Examples.tick false
                    [KeyboardPoll [mkEvent KEYDOWN (Some K_ESCAPE)]];
                  Examples.tick false [ExitSignal]]
                 (Examples.playing_a false))) <> Ok true
  /\ fst (fst (loop_and_clean_up
                 [Examples.tick false
                    [KeyboardPoll [mkEvent KEYDOWN (Some K_ESCAPE)]];
                  Examples.tick false [ExitSignal]]
                 (Examples.playing_a false))) <> Ok true.
Proof.
  exact (running_flag_is_never_cleared
           (Examples.usb false false) [mkEvent KEYDOWN (Some K_ESCAPE)]
           [Examples.tick false
              [KeyboardPoll [mkEvent KEYDOWN (Some K_ESCAPE)]];
            Examples.tick false [ExitSignal]]
           (Examples.playing_a false) eq_refl).
Defined.
